(** * web3scanner: retry executor, bytes serializer, address store, migrations

    A shallow embedding of the Go sources of the repository
    (common/retry, database/utils/serializers/bytes.go, database/addresses.go,
    database/db.go) together with the properties its specification states
    about them. *)

From Stdlib Require Import ZArith List String Ascii Bool Lia Arith.
From Stdlib Require Import DecimalString.
From Stdlib.Init Require Byte.
Import ListNotations.

Local Open Scope string_scope.
Local Open Scope Z_scope.

Set Warnings "-register-all".

(* ===================================================================== *)
(** * Go's [error] values                                                 *)
(* ===================================================================== *)

(** [fmt]'s [%d] verb for an [int]. *)
Definition itoa (z : Z) : string := NilEmpty.string_of_int (Z.to_int z).

(** The error values the repository creates or inspects.  A nilable Go
    [error] is an [option error]; [None] is [nil]. *)
Inductive error : Type :=
| Sentinel (name msg : string)
    (* a package-level error variable, compared by identity:
       gorm.ErrRecordNotFound, context.Canceled, hexutil.ErrSyntax, ... *)
| errorString (msg : string)
    (* a fresh value made by errors.New or by fmt.Errorf without %w *)
| wrapError (msg : string) (err : error)
    (* fmt.Errorf(msg + ": %w", err) *)
| withMessage (cause : error) (msg : string)
    (* github.com/pkg/errors Wrap(cause, msg) *)
| ErrFailedPermanently (attempts : Z) (LastErr : option error).
    (* &retry.ErrFailedPermanently{attempts, LastErr} *)

Module errors.

(** The [Error() string] method.  [%v] prints a nil error as [<nil>]. *)
Fixpoint Error (e : error) : string :=
  match e with
  | Sentinel _ msg => msg
  | errorString msg => msg
  | wrapError msg err => msg ++ ": " ++ Error err
  | withMessage cause msg => msg ++ ": " ++ Error cause
  | ErrFailedPermanently attempts LastErr =>
      "operation failed permanently after " ++ itoa attempts
        ++ " attempts: "
        ++ match LastErr with Some l => Error l | None => "<nil>" end
  end.

(** The [Unwrap() error] method, where the value has one. *)
Definition Unwrap (e : error) : option error :=
  match e with
  | Sentinel _ _ | errorString _ => None
  | wrapError _ err => Some err
  | withMessage cause _ => Some cause
  | ErrFailedPermanently _ LastErr => LastErr
  end.

(** [errors.Is(err, target)] for a sentinel [target], named [name]: walk
    the [Unwrap] chain and compare by identity.  Only a sentinel is
    identical to a sentinel. *)
Fixpoint Is (e : error) (name : string) : bool :=
  match e with
  | Sentinel n _ => String.eqb n name
  | errorString _ => false
  | wrapError _ err => Is err name
  | withMessage cause _ => Is cause name
  | ErrFailedPermanently _ LastErr =>
      match LastErr with Some l => Is l name | None => false end
  end.

Definition IsOpt (e : option error) (name : string) : bool :=
  match e with Some e' => Is e' name | None => false end.

End errors.

(* ===================================================================== *)
(** * package context                                                     *)
(* ===================================================================== *)

Module context.

Definition Canceled : error :=
  Sentinel "context.Canceled" "context canceled".
Definition DeadlineExceeded : error :=
  Sentinel "context.DeadlineExceeded" "context deadline exceeded".

End context.

(* ===================================================================== *)
(** * package retry                                                       *)
(* ===================================================================== *)

Module retry.

(** [time.Duration] *)
Definition Duration := Z.

(** The [Strategy] interface: [Duration(attempt int) time.Duration]. *)
Definition Strategy := Z -> Duration.

(** A [context.Context], as far as [Do] looks at it: what the successive
    calls of [ctx.Err()] answer, the first call being call 0. *)
Definition Context := nat -> option error.

(** [context.Background()]: never cancelled. *)
Definition Background : Context := fun _ => None.

(** A context cancelled with [e] from its [j]-th poll on, and live
    before.  Go's contract: once [Err] is non-nil it stays the same. *)
Definition cancelledFrom (j : nat) (e : error) : Context :=
  fun p => if (p <? j)%nat then None else Some e.

(** The operation [op func() (T, error)]: what its successive invocations
    return, the first invocation being invocation 0. *)
Definition Op (T : Type) := nat -> T * option error.

(** What an execution of [Do] has done so far. *)
Record World : Type := mkWorld {
  opCalls  : nat;             (* invocations of op *)
  ctxPolls : nat;             (* calls of ctx.Err() *)
  slept    : list Duration    (* arguments of time.Sleep, oldest first *)
}.

Definition fresh : World := mkWorld 0 0 [].

(** State passing over [World]. *)
Definition M (A : Type) : Type := World -> A * World.

Definition ret {A} (a : A) : M A := fun w => (a, w).

Definition bind {A B} (c : M A) (k : A -> M B) : M B :=
  fun w => let (a, w') := c w in k a w'.

Declare Scope retry_scope.
Delimit Scope retry_scope with retry.
Notation "x <- c ;; k" := (bind c (fun x => k))
  (at level 61, c at next level, right associativity) : retry_scope.
Notation "c ;;; k" := (bind c (fun _ => k))
  (at level 61, right associativity) : retry_scope.
Local Open Scope retry_scope.

(** [ctx.Err()] *)
Definition ctx_Err (ctx : Context) : M (option error) :=
  fun w => (ctx (ctxPolls w),
            mkWorld (opCalls w) (S (ctxPolls w)) (slept w)).

(** [op()] *)
Definition invoke {T} (op : Op T) : M (T * option error) :=
  fun w => (op (opCalls w),
            mkWorld (S (opCalls w)) (ctxPolls w) (slept w)).

(** [time.Sleep(d)] *)
Definition time_Sleep (d : Duration) : M unit :=
  fun w => (tt, mkWorld (opCalls w) (ctxPolls w) (slept w ++ [d])).

(** [fmt.Errorf("need at least 1 attempt to run op, but have %d max
    attempts", maxAttempts)] *)
Definition errNeedAttempts (maxAttempts : Z) : error :=
  errorString ("need at least 1 attempt to run op, but have "
                 ++ itoa maxAttempts ++ " max attempts").

Section Do.
Context {T : Type}.
Variable empty : T.              (* var empty T: the zero value of T *)
Variable ctx : Context.
Variable maxAttempts : Z.
Variable strategy : Strategy.
Variable op : Op T.

(** The [for i := 0; i < maxAttempts; i++] loop of [Do], entered at its
    condition with the current [i] and [err].  [fuel] bounds the number
    of iterations; [None] is fuel running out. *)
Fixpoint Do_loop (fuel : nat) (i : Z) (err : option error)
  : M (option (T * option error)) :=
  if i <? maxAttempts then
    match fuel with
    | O => ret None
    | S fuel' =>
        cerr <- ctx_Err ctx ;;
        match cerr with
        | Some _ =>
            cerr' <- ctx_Err ctx ;;
            ret (Some (empty, cerr'))
        | None =>
            r <- invoke op ;;
            match snd r with
            | None => ret (Some (fst r, None))
            | Some _ =>
                (if negb (i =? maxAttempts - 1)
                 then time_Sleep (strategy i)
                 else ret tt) ;;;
                Do_loop fuel' (i + 1) (snd r)
            end
        end
    end
  else
    ret (Some (empty, Some (ErrFailedPermanently maxAttempts err))).

(** [func Do[T any](ctx, maxAttempts, strategy, op) (T, error)] *)
Definition Do : M (option (T * option error)) :=
  if maxAttempts <? 1 then
    ret (Some (empty, Some (errNeedAttempts maxAttempts)))
  else
    Do_loop (Z.to_nat maxAttempts) 0 None.

End Do.

(** [func Do2[T, U any](ctx, maxAttempts, strategy, op) (T, U, error)]:
    the operation's two results are bundled in a [pair[T, U]], whose zero
    value has both fields zero. *)
Definition Do2 {T U : Type} (emptyT : T) (emptyU : U) (ctx : Context)
    (maxAttempts : Z) (strategy : Strategy)
    (op : nat -> T * U * option error)
  : M (option (T * U * option error)) :=
  let f : Op (T * U) := fun j => let '(a, b, err) := op j in ((a, b), err) in
  r <- Do (emptyT, emptyU) ctx maxAttempts strategy f ;;
  ret (match r with
       | Some (res, err) => Some (fst res, snd res, err)
       | None => None
       end).

(** The attempt indices [i], [i+1], ... of [m] successive iterations. *)
Fixpoint attempts (i : Z) (m : nat) : list Z :=
  match m with
  | O => []
  | S m' => i :: attempts (i + 1) m'
  end.

(** The world after [m] failed attempts that were each followed by a
    sleep, the first of them being attempt [i]. *)
Definition advance (strategy : Strategy) (m : nat) (i : Z) (w : World)
  : World :=
  mkWorld (opCalls w + m) (ctxPolls w + m)
    (slept w ++ map strategy (attempts i m)).

(** The first invocation among invocations [j .. j+m-1] on which the
    operation succeeds. *)
Fixpoint firstSuccess {T} (op : Op T) (j : nat) (m : nat) : option nat :=
  match m with
  | O => None
  | S m' =>
      match snd (op j) with
      | None => Some j
      | Some _ => firstSuccess op (S j) m'
      end
  end.

(** Modelled from the spec: [ExponentialStrategy] (common/retry/strategies.go
    is not among the sources).  The wait is
    [min(max, min * 2^attemptIndex) + randomJitter(0, maxJitter)];
    [jitter] gives the random draw of each attempt, brought into
    [0 .. MaxJitter]. *)
Definition ExponentialStrategy (Min Max MaxJitter : Duration)
    (jitter : Z -> Z) : Strategy :=
  fun attempt =>
    Z.min Max (Min * 2 ^ attempt)
    + Z.max 0 (Z.min MaxJitter (jitter attempt)).

(** The three ways a run of [Do] with [maxAttempts = n] can end, [r] being
    what it returns and [w] the world it leaves: attempt [i] succeeds after
    [i] failures; the context is found cancelled at the boundary of attempt
    [i]; all [n] attempts fail. *)
Definition endsInSuccess {T} (ctx : Context) (n : nat) (strategy : Strategy)
    (op : Op T) (r : T * option error) (w : World) : Prop :=
  exists i : nat,
    (i < n)%nat
    /\ (forall j, (j < i)%nat -> ctx j = None /\ snd (op j) <> None)
    /\ ctx i = None /\ snd (op i) = None
    /\ r = (fst (op i), None)
    /\ w = mkWorld (S i) (S i) (map strategy (attempts 0 i)).

Definition endsInCancellation {T} (empty : T) (ctx : Context) (n : nat)
    (strategy : Strategy) (op : Op T) (r : T * option error) (w : World)
  : Prop :=
  exists i : nat,
    (i < n)%nat
    /\ (forall j, (j < i)%nat -> ctx j = None /\ snd (op j) <> None)
    /\ ctx i <> None
    /\ r = (empty, ctx (S i))
    /\ w = mkWorld i (S (S i)) (map strategy (attempts 0 i)).

Definition endsInExhaustion {T} (empty : T) (ctx : Context) (n : nat)
    (strategy : Strategy) (op : Op T) (r : T * option error) (w : World)
  : Prop :=
  (forall j, (j < n)%nat -> ctx j = None /\ snd (op j) <> None)
  /\ r = (empty,
          Some (ErrFailedPermanently (Z.of_nat n) (snd (op (n - 1)%nat))))
  /\ w = mkWorld n n (map strategy (attempts 0 (n - 1))).

End retry.

(* ===================================================================== *)
(** * encoding/hex and go-ethereum's common/hexutil                       *)
(* ===================================================================== *)

(** A Go [byte]. *)
Definition byte : Type := Byte.byte.

Module hex.

Definition hextable : string := "0123456789abcdef".

(** [hextable[n]] *)
Definition hexdigit (n : N) : ascii :=
  match String.get (N.to_nat n) hextable with
  | Some c => c
  | None => "0"%char
  end.

(** [hex.Encode]: [dst[2i] = hextable[v>>4]], [dst[2i+1] = hextable[v&0x0f]]. *)
Fixpoint EncodeToString (src : list byte) : string :=
  match src with
  | [] => ""
  | v :: rest =>
      String (hexdigit (N.shiftr (Byte.to_N v) 4))
        (String (hexdigit (N.land (Byte.to_N v) 15))
           (EncodeToString rest))
  end.

(** [fromHexChar]: the value of a hexadecimal digit, of either case. *)
Definition fromHexChar (c : ascii) : option N :=
  let n := N_of_ascii c in
  if ((48 <=? n) && (n <=? 57))%N then Some (n - 48)%N
  else if ((97 <=? n) && (n <=? 102))%N then Some (n - 97 + 10)%N
  else if ((65 <=? n) && (n <=? 70))%N then Some (n - 65 + 10)%N
  else None.

Inductive DecodeError : Type :=
| ErrLength                          (* odd length hex string *)
| InvalidByteError (c : ascii).      (* invalid byte *)

(** [(a << 4) | b] as a byte *)
Definition mkByte (a b : N) : byte :=
  match Byte.of_N (N.lor (N.shiftl a 4) b) with
  | Some v => v
  | None => Byte.x00
  end.

(** [hex.DecodeString]: the bytes decoded before the first error, and the
    error.  Pairs are decoded left to right; a trailing single character
    is reported as an invalid byte when it is one, as a bad length
    otherwise. *)
Fixpoint DecodeString (s : string) : list byte * option DecodeError :=
  match s with
  | EmptyString => ([], None)
  | String p EmptyString =>
      match fromHexChar p with
      | None => ([], Some (InvalidByteError p))
      | Some _ => ([], Some ErrLength)
      end
  | String p (String q rest) =>
      match fromHexChar p with
      | None => ([], Some (InvalidByteError p))
      | Some a =>
          match fromHexChar q with
          | None => ([], Some (InvalidByteError q))
          | Some b =>
              let (bs, err) := DecodeString rest in
              (mkByte a b :: bs, err)
          end
      end
  end.

End hex.

Module hexutil.

Definition ErrEmptyString : error :=
  Sentinel "hexutil.ErrEmptyString" "empty hex string".
Definition ErrSyntax : error :=
  Sentinel "hexutil.ErrSyntax" "invalid hex string".
Definition ErrMissingPrefix : error :=
  Sentinel "hexutil.ErrMissingPrefix" "hex string without 0x prefix".
Definition ErrOddLength : error :=
  Sentinel "hexutil.ErrOddLength" "hex string of odd length".

(** [has0xPrefix]: the input starts with [0x] or [0X]. *)
Definition has0xPrefix (input : string) : bool :=
  match input with
  | String c0 (String c1 _) =>
      Ascii.eqb c0 "0" && (Ascii.eqb c1 "x" || Ascii.eqb c1 "X")
  | _ => false
  end.

Definition mapError (err : hex.DecodeError) : error :=
  match err with
  | hex.InvalidByteError _ => ErrSyntax
  | hex.ErrLength => ErrOddLength
  end.

(** [hexutil.Encode(b)]: [0x] followed by the lower-case digits. *)
Definition Encode (b : list byte) : string :=
  "0x" ++ hex.EncodeToString b.

(** [input[2:]] *)
Definition drop2 (input : string) : string :=
  match input with
  | String _ (String _ rest) => rest
  | _ => ""
  end.

(** [hexutil.Decode(input)] *)
Definition Decode (input : string) : list byte * option error :=
  if (String.length input =? 0)%nat then ([], Some ErrEmptyString)
  else if negb (has0xPrefix input) then ([], Some ErrMissingPrefix)
  else
    let (b, err) := hex.DecodeString (drop2 input) in
    (b, option_map mapError err).

(** Every character is a hexadecimal digit. *)
Fixpoint allHex (s : string) : bool :=
  match s with
  | EmptyString => true
  | String c rest =>
      match hex.fromHexChar c with Some _ => allHex rest | None => false end
  end.

(** Well-formed prefixed hex: [0x] or [0X], then an even number of
    hexadecimal digits. *)
Definition wellFormed (s : string) : bool :=
  has0xPrefix s
  && Nat.even (String.length (drop2 s))
  && allHex (drop2 s).

End hexutil.

(* ===================================================================== *)
(** * Go values, pointers and package reflect                             *)
(* ===================================================================== *)

Module reflect.

Inductive Receiver : Type := ValueReceiver | PointerReceiver.

Inductive Kind : Type := Invalid | Pointer | OtherKind.

Definition Kind_eqb (a b : Kind) : bool :=
  match a, b with
  | Invalid, Invalid | Pointer, Pointer | OtherKind, OtherKind => true
  | _, _ => false
  end.

Section WithRaw.
(** The states of the values of the named, non-pointer types. *)
Variable Raw : Type.

(** A named, non-pointer type: its name as [%T] prints it, its zero
    value, and its [Bytes() []byte] and [SetBytes([]byte)] methods when
    it declares them, each with the kind of its receiver.  A method is
    given by what it returns, respectively by the state it leaves its
    receiver in. *)
Record TypeDecl : Type := mkTypeDecl {
  tname : string;
  tzero : Raw;
  mBytes : option (Receiver * (Raw -> list byte));
  mSetBytes : option (Receiver * (Raw -> list byte -> Raw))
}.

Inductive GoType : Type :=
| Named (d : TypeDecl)
| PointerTo (elem : GoType).

(** [t.Kind()] *)
Definition Type_Kind (t : GoType) : Kind :=
  match t with Named _ => OtherKind | PointerTo _ => Pointer end.

(** [%T] *)
Fixpoint typeString (t : GoType) : string :=
  match t with
  | Named d => tname d
  | PointerTo elem => "*" ++ typeString elem
  end.

(** A Go value: a value of a named type, or a pointer, nil or the
    address of a heap cell. *)
Inductive GoValue : Type :=
| Val (d : TypeDecl) (r : Raw)
| Ptr (elem : GoType) (target : option nat).

Definition typeOf (v : GoValue) : GoType :=
  match v with Val d _ => Named d | Ptr elem _ => PointerTo elem end.

Definition zeroOf (t : GoType) : GoValue :=
  match t with Named d => Val d (tzero d) | PointerTo elem => Ptr elem None end.

(** The heap: cell [l] holds [nth l]. *)
Definition Heap : Type := list GoValue.

(** State passing over the heap; [None] is a run-time panic. *)
Definition St (A : Type) : Type := Heap -> option (A * Heap).

Definition ret {A} (a : A) : St A := fun h => Some (a, h).
Definition panic {A} : St A := fun _ => None.
Definition bind {A B} (c : St A) (k : A -> St B) : St B :=
  fun h => match c h with Some (a, h') => k a h' | None => None end.

Definition load (l : nat) : St GoValue :=
  fun h => match nth_error h l with Some v => Some (v, h) | None => None end.

Definition store (l : nat) (v : GoValue) : St unit :=
  fun h => if (l <? List.length h)%nat
           then Some (tt, (firstn l h ++ v :: skipn (S l) h)%list)
           else None.

Definition alloc (v : GoValue) : St nat :=
  fun h => Some (List.length h, (h ++ [v])%list).

(** A [reflect.Value]: the zero Value, a value held directly, or the
    variable at an address (addressable and settable). *)
Inductive Value : Type :=
| Zero
| Direct (v : GoValue)
| Cell (l : nat).

(** The Go value a [reflect.Value] stands for. *)
Definition contents (v : Value) : St GoValue :=
  match v with
  | Zero => panic
  | Direct g => ret g
  | Cell l => load l
  end.

(** [reflect.New(t)]: a pointer to a new zero value of [t]. *)
Definition New (t : GoType) : St Value :=
  bind (alloc (zeroOf t)) (fun l => ret (Direct (Ptr t (Some l)))).

(** [reflect.ValueOf(i)] *)
Definition ValueOf (i : GoValue) : Value := Direct i.

(** [v.Interface()] *)
Definition Value_Interface (v : Value) : St GoValue := contents v.

(** [v.Elem()]: the variable a pointer points to; the zero Value for a
    nil pointer; a panic for what is not a pointer. *)
Definition Value_Elem (v : Value) : St Value :=
  bind (contents v) (fun g =>
    match g with
    | Ptr _ (Some l) => ret (Cell l)
    | Ptr _ None => ret Zero
    | Val _ _ => panic
    end).

(** [v.Kind()]: [Invalid] for the zero Value. *)
Definition Value_Kind (v : Value) : St Kind :=
  match v with
  | Zero => ret Invalid
  | _ => bind (contents v) (fun g => ret (Type_Kind (typeOf g)))
  end.

(** [v.Set(x)]: assign to the variable [v] stands for. *)
Definition Value_Set (v x : Value) : St unit :=
  match v with
  | Cell l => bind (contents x) (fun g => store l g)
  | _ => panic
  end.

(** [v.IsNil()] *)
Definition Value_IsNil (v : Value) : St bool :=
  bind (contents v) (fun g =>
    match g with
    | Ptr _ None => ret true
    | Ptr _ (Some _) => ret false
    | Val _ _ => panic
    end).

(** [t.Elem()] of a pointer type. *)
Definition Type_Elem (t : GoType) : St GoType :=
  match t with PointerTo elem => ret elem | Named _ => panic end.

End WithRaw.

Arguments Named {Raw} d.
Arguments PointerTo {Raw} elem.
Arguments Val {Raw} d r.
Arguments Ptr {Raw} elem target.
Arguments Zero {Raw}.
Arguments Direct {Raw} v.
Arguments Cell {Raw} l.
Arguments ret {Raw A} a.
Arguments panic {Raw A}.
Arguments bind {Raw A B} c k.
Arguments load {Raw} l.
Arguments store {Raw} l v.
Arguments alloc {Raw} v.
Arguments contents {Raw} v.
Arguments New {Raw} t.
Arguments ValueOf {Raw} i.
Arguments Value_Interface {Raw} v.
Arguments Value_Elem {Raw} v.
Arguments Value_Kind {Raw} v.
Arguments Value_Set {Raw} v x.
Arguments Value_IsNil {Raw} v.
Arguments Type_Elem {Raw} t.
Arguments Type_Kind {Raw} t.
Arguments typeString {Raw} t.
Arguments typeOf {Raw} v.
Arguments zeroOf {Raw} t.
Arguments tname {Raw} t.
Arguments tzero {Raw} t.
Arguments mBytes {Raw} t.
Arguments mSetBytes {Raw} t.

Declare Scope heap_scope.
Delimit Scope heap_scope with heap.
Notation "x <- c ;; k" := (bind c (fun x => k))
  (at level 61, c at next level, right associativity) : heap_scope.
Notation "c ;;; k" := (bind c (fun _ => k))
  (at level 61, right associativity) : heap_scope.

End reflect.

(* ===================================================================== *)
(** * package serializers (database/utils/serializers/bytes.go)           *)
(* ===================================================================== *)

Module serializers.
Import reflect.
Local Open Scope heap_scope.

(** What the database driver hands to [Scan] as [dbValue interface{}];
    [None] is the nil interface. *)
Inductive DBValue : Type :=
| DBInt64 (n : Z)
| DBFloat64 (bits : Z)
| DBBool (b : bool)
| DBBytes (b : list byte)
| DBString (s : string)
| DBTime (unix : Z).

(** [%T] of a database value. *)
Definition dbTypeString (v : DBValue) : string :=
  match v with
  | DBInt64 _ => "int64"
  | DBFloat64 _ => "float64"
  | DBBool _ => "bool"
  | DBBytes _ => "[]uint8"
  | DBString _ => "string"
  | DBTime _ => "time.Time"
  end.

Section WithRaw.
Context {Raw : Type}.

(** [i.(BytesInterface)] followed by [Bytes()]: the method, when the
    method set of the dynamic type of [i] has it.  The method set of a
    named type holds its value-receiver methods, that of a pointer to a
    named type the methods of both receivers, that of a pointer to a
    pointer none. *)
Definition asBytesInterface (i : GoValue Raw)
  : option (St Raw (list byte)) :=
  match i with
  | Val d r =>
      match mBytes d with
      | Some (ValueReceiver, f) => Some (ret (f r))
      | _ => None
      end
  | Ptr (Named d) target =>
      match mBytes d with
      | Some (_, f) =>
          Some (match target with
                | Some l =>
                    g <- load l ;;
                    match g with
                    | Val _ r => ret (f r)
                    | Ptr _ _ => panic
                    end
                | None => panic
                end)
      | None => None
      end
  | Ptr (PointerTo _) _ => None
  end.

(** [i.(SetBytesInterface)] followed by [SetBytes(b)].  Through a
    pointer, a pointer-receiver method updates the pointee and a
    value-receiver method works on a copy. *)
Definition asSetBytesInterface (i : GoValue Raw)
  : option (list byte -> St Raw unit) :=
  match i with
  | Val d r =>
      match mSetBytes d with
      | Some (ValueReceiver, _) => Some (fun _ => ret tt)
      | _ => None
      end
  | Ptr (Named d) target =>
      match mSetBytes d with
      | Some (recv, f) =>
          Some (fun b =>
                  match target with
                  | Some l =>
                      g <- load l ;;
                      match g with
                      | Val d' r =>
                          match recv with
                          | PointerReceiver => store l (Val d' (f r b))
                          | ValueReceiver => ret tt
                          end
                      | Ptr _ _ => panic
                      end
                  | None => panic
                  end)
      | None => None
      end
  | Ptr (PointerTo _) _ => None
  end.

(** What a call of [SetBytes] through a pointer does to the pointee. *)
Definition receiverEffect (recv : Receiver)
    (f : Raw -> list byte -> Raw) : Raw -> list byte -> Raw :=
  match recv with
  | PointerReceiver => f
  | ValueReceiver => fun r _ => r
  end.



Definition errExpectedHexString (dbValue : DBValue) : error :=
  errorString ("expected hex string as the database value: "
                 ++ dbTypeString dbValue).

Definition errDecode (err : error) : error :=
  wrapError "failed to decode database value" err.

(** [%T] of [fieldValue], a [reflect.Value]. *)
Definition errDoublePointer : error :=
  errorString "double pointers are the max depth supported: reflect.Value".

Definition errNoSetBytes (fieldInterface : GoValue Raw) : error :=
  errorString ("field does not satisfy the `SetBytes([]byte)` interface: "
                 ++ typeString (typeOf fieldInterface)).

Definition errNoBytes : error :=
  errorString "field does not satisfy the `Bytes() []byte` interface".

End WithRaw.

Module BytesSerializer.
Section WithRaw.
Context {Raw : Type}.

(** [func (BytesSerializer) Scan(ctx, field, dst, dbValue) error].
    [FieldType] is [field.FieldType]; [dst] is the address of the
    variable [field.ReflectValueOf(ctx, dst)] stands for. *)
Definition Scan (FieldType : GoType Raw) (dst : nat)
    (dbValue : option DBValue) : St Raw (option error) :=
  match dbValue with
  | None => ret None
  | Some (DBString hexStr) =>
      match hexutil.Decode hexStr with
      | (_, Some err) => ret (Some (errDecode err))
      | (b, None) =>
          fieldValue <- New FieldType ;;
          fieldInterface <- Value_Interface fieldValue ;;
          r <- (if Kind_eqb (Type_Kind FieldType) Pointer then
                  nestedField <- Value_Elem fieldValue ;;
                  inner <- Value_Elem nestedField ;;
                  k <- Value_Kind inner ;;
                  if Kind_eqb k Pointer then
                    ret (inl errDoublePointer)
                  else
                    elemType <- Type_Elem FieldType ;;
                    p <- New elemType ;;
                    Value_Set nestedField p ;;;
                    fieldInterface' <- Value_Interface nestedField ;;
                    ret (inr fieldInterface')
                else ret (inr fieldInterface)) ;;
          match r with
          | inl err => ret (Some err)
          | inr fieldInterface =>
              match asSetBytesInterface fieldInterface with
              | None => ret (Some (errNoSetBytes fieldInterface))
              | Some SetBytes =>
                  SetBytes b ;;;
                  e <- Value_Elem fieldValue ;;
                  Value_Set (Cell dst) e ;;;
                  ret None
              end
          end
      end
  | Some other => ret (Some (errExpectedHexString other))
  end.

(** [func (BytesSerializer) Value(ctx, field, dst, fieldValue)
    (interface{}, error)].  [fieldValue] is an [interface{}], [None]
    the nil interface; so is the first result, which holds a string
    when it is not nil. *)
Definition Value (FieldType : GoType Raw)
    (fieldValue : option (GoValue Raw))
  : St Raw (option string * option error) :=
  match fieldValue with
  | None => ret (None, None)
  | Some fv =>
      isNil <- (if Kind_eqb (Type_Kind FieldType) Pointer
                then Value_IsNil (ValueOf fv)
                else ret false) ;;
      if (isNil : bool) then ret (None, None)
      else
        match asBytesInterface fv with
        | None => ret (None, Some errNoBytes)
        | Some Bytes =>
            b <- Bytes ;;
            ret (Some (hexutil.Encode b), None)
        end
  end.

End WithRaw.
End BytesSerializer.

End serializers.

(* ===================================================================== *)
(** * package strings, on ASCII text                                      *)
(* ===================================================================== *)

Module strings.

(** One byte of [strings.ToLower]: an upper-case ASCII letter becomes its
    lower-case form; the texts lowered here are ASCII. *)
Definition toLowerByte (c : ascii) : ascii :=
  let n := N_of_ascii c in
  if ((65 <=? n) && (n <=? 90))%N then ascii_of_N (n + 32) else c.

Fixpoint ToLower (s : string) : string :=
  match s with
  | EmptyString => EmptyString
  | String c rest => String (toLowerByte c) (ToLower rest)
  end.

(** [strings.Contains(s, substr)] *)
Fixpoint Contains (s substr : string) : bool :=
  if String.prefix substr s then true
  else match s with
       | EmptyString => false
       | String _ rest => Contains rest substr
       end.

(** [strings.Join(elems, sep)] *)
Fixpoint Join (elems : list string) (sep : string) : string :=
  match elems with
  | [] => ""
  | [e] => e
  | e :: rest => e ++ sep ++ Join rest sep
  end.

(** [strings.Index(s, substr)]: the index of the first instance of
    [substr] in [s], or -1. *)
Fixpoint Index (s substr : string) : Z :=
  if String.prefix substr s then 0
  else match s with
       | EmptyString => -1
       | String _ rest =>
           let i := Index rest substr in
           if i <? 0 then -1 else i + 1
       end.

(** A text of bytes below [utf8.RuneSelf], on which [strings.ToLower]
    works byte by byte. *)
Fixpoint isASCII (s : string) : bool :=
  match s with
  | EmptyString => true
  | String c rest => (N_of_ascii c <? 128)%N && isASCII rest
  end.

End strings.

(* ===================================================================== *)
(** * go-ethereum's common.Address                                        *)
(* ===================================================================== *)

Module common.

Definition AddressLength : nat := 20.

(** [type Address [AddressLength]byte], as the list of its bytes. *)
Definition Address : Type := list byte.

Definition zeroAddress : Address := repeat Byte.x00 AddressLength.

(** [func (a Address) Bytes() []byte { return a[:] }] *)
Definition Bytes (a : Address) : list byte := a.

(** [func (a *Address) SetBytes(b []byte)]: [b] is cropped from the left
    to the length of an address and copied to the right end of [a]. *)
Definition SetBytes (a : Address) (b : list byte) : Address :=
  let b' := if (AddressLength <? List.length b)%nat
            then skipn (List.length b - AddressLength) b
            else b in
  (firstn (AddressLength - List.length b') a ++ b')%list.

(** [BytesToAddress] *)
Definition BytesToAddress (b : list byte) : Address :=
  SetBytes zeroAddress b.

(** [FromHex]: the prefix is optional, a missing leading digit is taken
    as [0], and the error of the decoder is dropped. *)
Definition FromHex (s : string) : list byte :=
  let s1 := if hexutil.has0xPrefix s then hexutil.drop2 s else s in
  let s2 := if Nat.odd (String.length s1) then String "0" s1 else s1 in
  fst (hex.DecodeString s2).

(** [HexToAddress] *)
Definition HexToAddress (s : string) : Address :=
  BytesToAddress (FromHex s).

Section Checksum.
(** Keccak-256 of a text: 32 bytes. *)
Variable Keccak256 : string -> list byte.

(** The loop of [checksumHex] over the digits, [k] being the index of
    the digit: a letter is put in upper case when the [k]-th nibble of
    the hash is above 7. *)
Fixpoint checksumCase (hash : list byte) (k : nat) (digits : string)
  : string :=
  match digits with
  | EmptyString => EmptyString
  | String c rest =>
      let hashByte := Byte.to_N (nth (k / 2) hash Byte.x00) in
      let nibble := if Nat.even k then N.shiftr hashByte 4
                    else N.land hashByte 15 in
      let c' := if ((57 <? N_of_ascii c) && (7 <? nibble))%N
                then ascii_of_N (N_of_ascii c - 32)
                else c in
      String c' (checksumCase hash (S k) rest)
  end.

(** [func (a *Address) checksumHex() []byte]: the EIP-55 form. *)
Definition checksumHex (a : Address) : string :=
  let digits := hex.EncodeToString a in
  "0x" ++ checksumCase (Keccak256 digits) 0 digits.

(** [func (a Address) Hex() string] and [String() string] *)
Definition Hex (a : Address) : string := checksumHex a.
Definition String_ (a : Address) : string := Hex a.

End Checksum.

(** A textual rendering of an address: the prefix, then 40 hexadecimal
    digits of either case. *)
Definition isAddressHex (s : string) : bool :=
  hexutil.wellFormed s
  && (String.length (hexutil.drop2 s) =? 2 * AddressLength)%nat.

(** [common.Address] as a type of the serializer's universe: [Bytes] has
    a value receiver, [SetBytes] a pointer receiver. *)
Definition AddressDecl : reflect.TypeDecl Address :=
  reflect.mkTypeDecl Address "common.Address" zeroAddress
    (Some (reflect.ValueReceiver, Bytes))
    (Some (reflect.PointerReceiver, SetBytes)).

End common.

(* ===================================================================== *)
(** * package path/filepath and the file tree                             *)
(* ===================================================================== *)

Module filepath.

(** A path in its clean form: rooted or not, and its elements. *)
Record Path : Type := mkPath {
  isAbs : bool;
  elems : list string
}.

Definition pathString (p : Path) : string :=
  match isAbs p, elems p with
  | true, es => "/" ++ strings.Join es "/"
  | false, [] => "."
  | false, es => strings.Join es "/"
  end.

(** [filepath.Join(path, name)] for the name of a directory entry. *)
Definition Join (path : Path) (name : string) : Path :=
  mkPath (isAbs path) (elems path ++ [name]).

Definition list_eqb (a b : list string) : bool :=
  if list_eq_dec string_dec a b then true else false.

(** The elements left of base and target after their common prefix. *)
Fixpoint stripCommon (b t : list string) : list string * list string :=
  match b, t with
  | x :: b', y :: t' =>
      if String.eqb x y then stripCommon b' t' else (b, t)
  | _, _ => (b, t)
  end.

Definition errRel (basepath targpath : Path) : error :=
  errorString ("Rel: can't make " ++ pathString targpath
                 ++ " relative to " ++ pathString basepath).

(** [filepath.Rel(basepath, targpath)]: [.] for the same path; an error
    when only one of them is rooted, or when base departs from the target
    at a [..] element; otherwise one [..] for each element left of base,
    followed by what is left of the target. *)
Definition Rel (basepath targpath : Path) : string * option error :=
  if Bool.eqb (isAbs basepath) (isAbs targpath)
     && list_eqb (elems basepath) (elems targpath)
  then (".", None)
  else if negb (Bool.eqb (isAbs basepath) (isAbs targpath))
  then ("", Some (errRel basepath targpath))
  else
    let (b, t) := stripCommon (elems basepath) (elems targpath) in
    match b, t with
    | x :: _, _ :: _ =>
        if String.eqb x ".." then ("", Some (errRel basepath targpath))
        else (strings.Join (map (fun _ => "..") b ++ t) "/", None)
    | _, _ => (strings.Join (map (fun _ => "..") b ++ t) "/", None)
    end.

(** What is found at a path.  The entries of a directory are in lexical
    order of their names, as [readDirNames] returns them. *)
Inductive Node : Type :=
| RegularFile (content : string)
| Unreadable (err : error)        (* not a directory; os.ReadFile fails *)
| Directory (entries : list (string * Node))
| UnlistableDir (err : error)     (* a directory that cannot be listed *)
| LstatFails (err : error).       (* os.Lstat fails *)

(** [info.IsDir()] *)
Definition IsDir (info : Node) : bool :=
  match info with
  | Directory _ | UnlistableDir _ => true
  | _ => false
  end.

Definition SkipDir : error :=
  Sentinel "filepath.SkipDir" "skip this directory".
Definition SkipAll : error :=
  Sentinel "filepath.SkipAll" "skip everything and stop the walk".

Definition isSentinel (e : option error) (name : string) : bool :=
  match e with
  | Some (Sentinel n _) => String.eqb n name
  | _ => false
  end.

Definition isNil (e : option error) : bool :=
  match e with None => true | Some _ => false end.

Section Walk.
(** The state the walk function works on. *)
Context {S : Type}.

(** [filepath.WalkFunc]: [func(path string, info os.FileInfo, err
    error) error]; [info] is nil when [Lstat] failed. *)
Definition WalkFunc : Type :=
  Path -> option Node -> option error -> S -> option error * S.

Variable walkFn : WalkFunc.

(** [func walk(path string, info fs.FileInfo, walkFn WalkFunc) error] *)
Fixpoint walk (path : Path) (info : Node) (s : S) {struct info}
  : option error * S :=
  match info with
  | Directory entries =>
      let (err1, s1) := walkFn path (Some info) None s in
      if negb (isNil err1) then (err1, s1)
      else
        (fix loop (es : list (string * Node)) (s : S) {struct es}
           : option error * S :=
           match es with
           | [] => (None, s)
           | (name, child) :: rest =>
               let filename := Join path name in
               match child with
               | LstatFails e =>
                   let (err, s') := walkFn filename None (Some e) s in
                   if negb (isNil err)
                      && negb (isSentinel err "filepath.SkipDir")
                   then (err, s')
                   else loop rest s'
               | _ =>
                   let (err, s') := walk filename child s in
                   if negb (isNil err)
                      && (negb (IsDir child)
                          || negb (isSentinel err "filepath.SkipDir"))
                   then (err, s')
                   else loop rest s'
               end
           end) entries s1
  | UnlistableDir e => walkFn path (Some info) (Some e) s
  | _ => walkFn path (Some info) None s
  end.

(** [func Walk(root string, fn WalkFunc) error], [fs] being what is
    found at [root]. *)
Definition Walk (root : Path) (fs : Node) (s : S) : option error * S :=
  let (err, s') :=
    match fs with
    | LstatFails e => walkFn root None (Some e) s
    | _ => walk root fs s
    end in
  if isSentinel err "filepath.SkipDir" || isSentinel err "filepath.SkipAll"
  then (None, s')
  else (err, s').

End Walk.

(** The entries below [path], themselves included, in the order of the
    walk: a directory before its entries, the entries in the order of
    their names. *)
Fixpoint visits (path : Path) (found : Node) {struct found}
  : list (Path * Node) :=
  match found with
  | Directory entries =>
      (path, found)
        :: (fix below (es : list (string * Node)) : list (Path * Node) :=
              match es with
              | [] => []
              | (name, child) :: rest =>
                  (visits (Join path name) child ++ below rest)%list
              end) entries
  | _ => [(path, found)]
  end.

Definition isLstatFails (found : Node) : bool :=
  match found with LstatFails _ => true | _ => false end.


End filepath.

Module os.

(** [os.ReadFile(path)], on what is found at [path]: the whole content of
    a regular file, an error for anything else. *)
Definition ReadFile (found : filepath.Node) : string * option error :=
  match found with
  | filepath.RegularFile content => (content, None)
  | filepath.Unreadable err => ("", Some err)
  | filepath.Directory _ | filepath.UnlistableDir _ =>
      ("", Some (errorString "read: is a directory"))
  | filepath.LstatFails err => ("", Some err)
  end.

End os.

(* ===================================================================== *)
(** * gorm, as the address store uses it                                  *)
(* ===================================================================== *)

Module gorm.

Definition ErrRecordNotFound : error :=
  Sentinel "gorm.ErrRecordNotFound" "record not found".

(** A row of table [addresses] as stored: column [address] is the text
    the [bytes] serializer wrote. *)
Record Row : Type := mkRow {
  guid : string;
  address : string;
  address_type : Z;
  public_key : string;
  timestamp : Z
}.

(** A [*gorm.DB] with the storage behind it: the rows of the table in the
    order the engine scans them, and the failure the engine answers a
    statement with, if it fails. *)
Record DB : Type := mkDB {
  rows : list Row;
  fault : option error
}.

(** [Where("address", v)] and [Where("address_type", n)] *)
Inductive Cond : Type :=
| WhereAddress (v : string)
| WhereAddressType (n : Z).

Definition holds (c : Cond) (r : Row) : bool :=
  match c with
  | WhereAddress v => String.eqb (address r) v
  | WhereAddressType n => address_type r =? n
  end.

(** [ORDER BY guid]: insertion in a list ordered by primary key. *)
Fixpoint insertByKey (r : Row) (l : list Row) : list Row :=
  match l with
  | [] => [r]
  | x :: rest =>
      if String.leb (guid r) (guid x) then r :: l
      else x :: insertByKey r rest
  end.

Definition orderByKey (l : list Row) : list Row :=
  fold_right insertByKey [] l.

Section Dest.
(** The struct a row is scanned into, its zero value, and the scan of
    one row into it, which may fail. *)
Context {D : Type}.
Variable zero : D.
Variable scanRow : Row -> D * option error.

Definition firstOf (candidates : list Row) (c : Cond)
  : D * option error :=
  match find (holds c) candidates with
  | Some r => scanRow r
  | None => (zero, Some ErrRecordNotFound)
  end.

(** [db.Table("addresses").Where(c).Take(&dest).Error]: one matching
    row, in no specified order: the first the engine finds. *)
Definition Take (db : DB) (c : Cond) : D * option error :=
  match fault db with
  | Some e => (zero, Some e)
  | None => firstOf (rows db) c
  end.

(** [db.Table("addresses").Where(c).First(&dest).Error]: the matching
    row with the least primary key. *)
Definition First (db : DB) (c : Cond) : D * option error :=
  match fault db with
  | Some e => (zero, Some e)
  | None => firstOf (orderByKey (rows db)) c
  end.

End Dest.

Definition ErrEmptySlice : error :=
  Sentinel "gorm.ErrEmptySlice" "empty slice found".

(** The errors of the storage engine for the constraints of table
    [addresses], as its schema declares them: [guid] is the primary key,
    [address] is unique, [address_type] is a SMALLINT, [timestamp] is an
    INTEGER with [CHECK (timestamp > 0)].  Each names the constraint, or
    the type, that refused the row; the engine writes the name between
    quotation marks. *)
Definition errUnique (constraint : string) : error :=
  errorString ("ERROR: duplicate key value violates unique constraint "
                 ++ constraint ++ " (SQLSTATE 23505)").
Definition errCheck (constraint : string) : error :=
  errorString ("ERROR: new row for relation addresses violates check constraint "
                 ++ constraint ++ " (SQLSTATE 23514)").
Definition errOutOfRange (type : string) : error :=
  errorString ("ERROR: " ++ type ++ " out of range (SQLSTATE 22003)").
Definition errNotNull (column : string) : error :=
  errorString ("ERROR: null value in column " ++ column
                 ++ " violates not-null constraint (SQLSTATE 23502)").

Definition inInteger (n : Z) : bool :=
  (-2147483648 <=? n) && (n <=? 2147483647).
Definition inSmallint (n : Z) : bool :=
  (-32768 <=? n) && (n <=? 32767).

Definition hasGuid (table : list Row) (g : string) : bool :=
  existsb (fun x => String.eqb (guid x) g) table.
Definition hasAddress (table : list Row) (a : string) : bool :=
  existsb (fun x => String.eqb (address x) a) table.

(** What the schema refuses of a new row, given the rows of the table. *)
Definition violation (table : list Row) (r : Row) : option error :=
  if negb (inSmallint (address_type r)) then Some (errOutOfRange "smallint")
  else if negb (inInteger (timestamp r)) then Some (errOutOfRange "integer")
  else if timestamp r <=? 0
  then Some (errCheck "addresses_timestamp_check")
  else if hasGuid table (guid r) then Some (errUnique "addresses_pkey")
  else if hasAddress table (address r)
  then Some (errUnique "addresses_address_key")
  else None.

(** One INSERT statement with several rows: the rows enter the table in
    order; the first row the schema refuses fails the statement, which
    then leaves the table as it was. *)
Fixpoint insertRows (table new : list Row) : list Row + error :=
  match new with
  | [] => inl table
  | r :: rest =>
      match violation table r with
      | Some e => inr e
      | None => insertRows (table ++ [r]) rest
      end
  end.

Section Source.
(** The struct written to the table, and the row made of one value, which
    may fail. *)
Context {D : Type}.
Variable toRow : D -> Row * option error.

Fixpoint convert (values : list D) : list Row * option error :=
  match values with
  | [] => ([], None)
  | v :: rest =>
      match toRow v with
      | (_, Some e) => ([], Some e)
      | (r, None) =>
          let (rs, err) := convert rest in (r :: rs, err)
      end
  end.

(** [db.Table("addresses").Create(&values)] for a slice: one INSERT of
    all the values; an empty slice is an error. *)
Definition Create (db : DB) (values : list D) : DB * option error :=
  match values with
  | [] => (db, Some ErrEmptySlice)
  | _ =>
      match fault db with
      | Some e => (db, Some e)
      | None =>
          match convert values with
          | (_, Some e) => (db, Some e)
          | (new, None) =>
              match insertRows (rows db) new with
              | inr e => (db, Some e)
              | inl table => (mkDB table None, None)
              end
          end
      end
  end.

(** The loop of [CreateInBatches]: [for i := 0; i < reflectLen; i +=
    batchSize], each batch its own statement, the first error ending the
    loop.  [values] is what is left from index [i] on; [fuel] bounds the
    iterations. *)
Fixpoint createBatches (fuel : nat) (db : DB) (values : list D)
    (batchSize : nat) : DB * option error :=
  match values with
  | [] => (db, None)
  | _ =>
      match fuel with
      | O => (db, None)
      | S fuel' =>
          let (db', err) := Create db (firstn batchSize values) in
          match err with
          | Some e => (db', Some e)
          | None => createBatches fuel' db' (skipn batchSize values) batchSize
          end
      end
  end.

(** [db.Table("addresses").CreateInBatches(&values, batchSize)], the
    session skipping the default transaction. *)
Definition CreateInBatches (db : DB) (values : list D) (batchSize : nat)
  : DB * option error :=
  createBatches (List.length values) db values batchSize.

End Source.

Section FindAll.
(** [db.AddError]: how gorm joins the error it holds with a new one. *)
Variable addError : error -> error -> error.
Context {D : Type}.
Variable scanRow : Row -> D * option error.

(** The scan of the rows of a result into a slice: every row gives an
    element; the errors of the scans are joined. *)
Fixpoint scanRows (rs : list Row) (acc : option error)
  : list D * option error :=
  match rs with
  | [] => ([], acc)
  | r :: rest =>
      let (d, err) := scanRow r in
      let acc' := match acc, err with
                  | None, _ => err
                  | Some a, None => Some a
                  | Some a, Some e => Some (addError a e)
                  end in
      let (ds, final) := scanRows rest acc' in
      (d :: ds, final)
  end.

(** [db.Table("addresses").Find(&dest).Error] for a slice: all the rows;
    none found is no error. *)
Definition Find (db : DB) : list D * option error :=
  match fault db with
  | Some e => ([], Some e)
  | None => scanRows (rows db) None
  end.

End FindAll.

End gorm.

(* ===================================================================== *)
(** * package database: the address store (addresses.go)                  *)
(* ===================================================================== *)

Module database.

(** [type Addresses struct] *)
Record Addresses : Type := mkAddresses {
  GUID : string;
  Address : common.Address;
  AddressType : Z;
  PublicKey : string;
  Timestamp : Z
}.

Definition zeroAddresses : Addresses :=
  mkAddresses "" common.zeroAddress 0 "" 0.

(** Column [address] scanned into field [Address], tagged
    [serializer:bytes]: [BytesSerializer.Scan] runs on a heap whose cell 0
    is the field of the fresh [addressEntry]. *)
Definition scanAddress (text : string) : common.Address * option error :=
  let FieldType := reflect.Named common.AddressDecl in
  match serializers.BytesSerializer.Scan FieldType 0
          (Some (serializers.DBString text)) [reflect.zeroOf FieldType] with
  | Some (err, h) =>
      (match nth_error h 0 with
       | Some (reflect.Val _ a) => a
       | _ => common.zeroAddress
       end, err)
  | None => (common.zeroAddress, Some (errorString "panic"))
  end.

(** A row scanned into an [Addresses]. *)
Definition scanRow (r : gorm.Row) : Addresses * option error :=
  let (a, err) := scanAddress (gorm.address r) in
  (mkAddresses (gorm.guid r) a (gorm.address_type r) (gorm.public_key r)
     (gorm.timestamp r), err).

Section addressesDB.
Variable Keccak256 : string -> list byte.

(** The key of the look-up:
    [strings.ToLower(address.String())]. *)
Definition lookupKey (address : common.Address) : string :=
  strings.ToLower (common.String_ Keccak256 address).

(** [func (db *addressesDB) AddressExist(address *common.Address)
    (bool, uint8)] *)
Definition AddressExist (db : gorm.DB) (address : common.Address)
  : bool * Z :=
  let (addressEntry, err) :=
    gorm.First zeroAddresses scanRow db
      (gorm.WhereAddress (lookupKey address)) in
  match err with
  | Some e =>
      if errors.Is e "gorm.ErrRecordNotFound" then (false, 0)
      else (false, 0)
  | None => (true, AddressType addressEntry)
  end.

(** [func (db *addressesDB) QueryAddressesByToAddress(address)],
    returning a [*Addresses] and an [error] *)
Definition QueryAddressesByToAddress (db : gorm.DB)
    (address : common.Address) : option Addresses * option error :=
  let (addressEntry, err) :=
    gorm.Take zeroAddresses scanRow db
      (gorm.WhereAddress (lookupKey address)) in
  match err with
  | Some e =>
      if errors.Is e "gorm.ErrRecordNotFound"
      then (None, Some gorm.ErrRecordNotFound)
      else (None, Some e)
  | None => (Some addressEntry, None)
  end.

End addressesDB.



(** Field [Address], tagged [serializer:bytes], written to column
    [address]: [BytesSerializer.Value] on the value of the field. *)
Definition valueAddress (a : common.Address)
  : option string * option error :=
  match serializers.BytesSerializer.Value
          (reflect.Named common.AddressDecl)
          (Some (reflect.Val common.AddressDecl a)) [] with
  | Some (r, _) => r
  | None => (None, Some (errorString "panic"))
  end.

(** An [Addresses] as a row to insert. *)
Definition toRow (e : Addresses) : gorm.Row * option error :=
  let row text := gorm.mkRow (GUID e) text (AddressType e) (PublicKey e)
                    (Timestamp e) in
  match valueAddress (Address e) with
  | (_, Some err) => (row "", Some err)
  | (None, None) => (row "", Some (gorm.errNotNull "address"))
  | (Some text, None) => (row text, None)
  end.

(** [func (db *addressesDB) StoreAddresses(addressList []Addresses)
    error], with the storage it leaves. *)
Definition StoreAddresses (db : gorm.DB) (addressList : list Addresses)
  : gorm.DB * option error :=
  gorm.CreateInBatches toRow db addressList (List.length addressList).

Section GetAllAddresses.
Variable addError : error -> error -> error.

(** [func (db *addressesDB) GetAllAddresses()], returning a slice of
    [*Addresses], a nil slice and an empty one both being [[]], and an
    [error]. *)
Definition GetAllAddresses (db : gorm.DB)
  : list Addresses * option error :=
  let (addresses, err) := gorm.Find addError scanRow db in
  match err with
  | Some e =>
      if errors.Is e "gorm.ErrRecordNotFound" then ([], None)
      else ([], Some e)
  | None => (addresses, None)
  end.

End GetAllAddresses.

(** The row a stored [Addresses] makes: column [address] holds the
    lower-case hex of the address. *)
Definition rowOf (e : Addresses) : gorm.Row :=
  gorm.mkRow (GUID e) (hexutil.Encode (Address e)) (AddressType e)
    (PublicKey e) (Timestamp e).

(** The constraints of the schema hold of a table: the keys differ, the
    addresses differ, every classification is a SMALLINT and every
    timestamp a positive INTEGER. *)
Definition validTable (table : list gorm.Row) : Prop :=
  NoDup (map gorm.guid table)
  /\ NoDup (map gorm.address table)
  /\ forall r, In r table ->
       gorm.inSmallint (gorm.address_type r) = true
       /\ gorm.inInteger (gorm.timestamp r) = true
       /\ 0 < gorm.timestamp r.


(* ------------------------------------------------------------------- *)
(** ** db.go *)

(** [config.DBConfig] *)
Record DBConfig : Type := mkDBConfig {
  Host : string;
  Port : Z;
  Name : string;
  User : string;
  Password : string
}.

(** [type DB struct { gorm *gorm.DB; Addresses AddressesDB }]; the
    address store of a [DB] works on its [gorm] handle. *)
Record DB : Type := mkDB {
  gorm_ : option gorm.DB       (* the *gorm.DB, [None] when nil *)
}.

(** The data source name [NewDB] builds. *)
Definition dsnOf (dbConfig : DBConfig) : string :=
  let dsn := "host=" ++ Host dbConfig ++ " dbname=" ++ Name dbConfig
               ++ " sslmode=disable" in
  let dsn := if negb (Port dbConfig =? 0)
             then dsn ++ " port=" ++ itoa (Port dbConfig) else dsn in
  let dsn := if negb (String.eqb (User dbConfig) "")
             then dsn ++ " user=" ++ User dbConfig else dsn in
  let dsn := if negb (String.eqb (Password dbConfig) "")
             then dsn ++ " password=" ++ Password dbConfig else dsn in
  dsn.

Section NewDB.
(** [gorm.Open(postgres.Open(dsn), &gormConfig)]: what its successive
    calls return for a data source name. *)
Variable gorm_Open : string -> nat -> option gorm.DB * option error.
(** The random draws of the jitter of the backoff. *)
Variable jitter : Z -> Z.

(** The operation [NewDB] hands to [retry.Do]. *)
Definition openOp (dsn : string) : retry.Op (option gorm.DB) :=
  fun j =>
    match gorm_Open dsn j with
    | (_, Some err) =>
        (None, Some (wrapError "failed to connect to database" err))
    | (g, None) => (g, None)
    end.

(** [func NewDB(ctx context.Context, dbConfig config.DBConfig)],
    returning a [*DB] and an [error].  [retry.Do] is given
    [context.Background()]. *)
Definition NewDB (ctx : retry.Context) (dbConfig : DBConfig)
  : retry.M (option (option DB * option error)) :=
  let dsn := dsnOf dbConfig in
  let retryStrategy := retry.ExponentialStrategy 1000 20000 250 jitter in
  retry.bind
    (retry.Do None retry.Background 10 retryStrategy (openOp dsn))
    (fun r =>
       retry.ret
         (match r with
          | None => None
          | Some (_, Some err) => Some (None, Some err)
          | Some (g, None) => Some (Some (mkDB g), None)
          end)).

End NewDB.

(** What a run of [ExecuteSQLMigration] has done: the paths given to
    [os.ReadFile] and the scripts given to [db.gorm.Exec], oldest
    first. *)
Record Migration : Type := mkMigration {
  filesRead : list string;
  executed : list string
}.

Section ExecuteSQLMigration.
(** [db.gorm.Exec(script).Error], after the scripts executed before. *)
Variable Exec : list string -> string -> option error.

Definition errInvalidPath : error :=
  errorString "invalid migration file path".

(** [info.IsDir()] on a nil [info] panics; [Walk] gives a nil [info]
    only together with an error, so this is not reached. *)
Definition errNilInfo : error :=
  errorString "panic: invalid memory address or nil pointer dereference".

(** The function literal [ExecuteSQLMigration] hands to
    [filepath.Walk]. *)
Definition migrateFile (migrationsFolder : filepath.Path)
  : @filepath.WalkFunc Migration :=
  fun path info err m =>
    match err with
    | Some e =>
        (Some (withMessage e
                 ("Failed to process migration file: "
                    ++ filepath.pathString path)), m)
    | None =>
        match info with
        | None => (Some errNilInfo, m)
        | Some info =>
            if filepath.IsDir info then (None, m)
            else
              let (relativePath, err) :=
                filepath.Rel migrationsFolder path in
              if negb (filepath.isNil err)
                 || strings.Contains relativePath ".."
              then (Some errInvalidPath, m)
              else
                let m1 := mkMigration
                            (filesRead m ++ [filepath.pathString path])
                            (executed m) in
                match os.ReadFile info with
                | (_, Some readErr) =>
                    (Some (withMessage readErr
                             ("Error reading SQL file: "
                                ++ filepath.pathString path)), m1)
                | (fileContent, None) =>
                    let m2 := mkMigration (filesRead m1)
                                (executed m1 ++ [fileContent]) in
                    match Exec (executed m1) fileContent with
                    | Some execErr =>
                        (Some (withMessage execErr
                                 ("Error executing SQL script: "
                                    ++ filepath.pathString path)), m2)
                    | None => (None, m2)
                    end
                end
        end
    end.

(** The test of the path: [err != nil || strings.Contains(relativePath,
    "..")]. *)
Definition rejected (migrationsFolder path : filepath.Path) : bool :=
  let (relativePath, err) := filepath.Rel migrationsFolder path in
  negb (filepath.isNil err) || strings.Contains relativePath "..".

(** The migration as the specification words it, over the entries in
    walk order: an entry that cannot be examined or listed is an error; a
    directory is skipped; an entry whose path is rejected is an error, and
    is not read; any other entry is read in full and its content executed
    as one script; the first error ends the run and is returned. *)
Fixpoint migrateAll (migrationsFolder : filepath.Path)
    (entries : list (filepath.Path * filepath.Node)) (m : Migration)
  : option error * Migration :=
  match entries with
  | [] => (None, m)
  | (path, found) :: rest =>
      match found with
      | filepath.LstatFails e | filepath.UnlistableDir e =>
          (Some (withMessage e
                   ("Failed to process migration file: "
                      ++ filepath.pathString path)), m)
      | filepath.Directory _ => migrateAll migrationsFolder rest m
      | _ =>
          if rejected migrationsFolder path then (Some errInvalidPath, m)
          else
            let m1 := mkMigration (filesRead m ++ [filepath.pathString path])
                        (executed m) in
            match os.ReadFile found with
            | (_, Some readErr) =>
                (Some (withMessage readErr
                         ("Error reading SQL file: "
                            ++ filepath.pathString path)), m1)
            | (fileContent, None) =>
                let m2 := mkMigration (filesRead m1)
                            (executed m1 ++ [fileContent]) in
                match Exec (executed m1) fileContent with
                | Some execErr =>
                    (Some (withMessage execErr
                             ("Error executing SQL script: "
                                ++ filepath.pathString path)), m2)
                | None => migrateAll migrationsFolder rest m2
                end
            end
      end
  end.

(** The regular files among entries, with their contents. *)
Definition regularFiles (entries : list (filepath.Path * filepath.Node))
  : list (filepath.Path * string) :=
  flat_map (fun pn => match snd pn with
                      | filepath.RegularFile c => [(fst pn, c)]
                      | _ => []
                      end) entries.

(** Every entry is a directory or a regular file whose path passes the
    test. *)
Definition allAccepted (migrationsFolder : filepath.Path)
    (entries : list (filepath.Path * filepath.Node)) : Prop :=
  forall path found, In (path, found) entries ->
    match found with
    | filepath.Directory _ => True
    | filepath.RegularFile _ => rejected migrationsFolder path = false
    | _ => False
    end.

(** [func (db *DB) ExecuteSQLMigration(migrationsFolder string) error],
    [fs] being what is found at [migrationsFolder]. *)
Definition ExecuteSQLMigration (migrationsFolder : filepath.Path)
    (fs : filepath.Node) (m : Migration) : option error * Migration :=
  filepath.Walk (migrateFile migrationsFolder) migrationsFolder fs m.

End ExecuteSQLMigration.

End database.

(* ===================================================================== *)
(** * package utils: the logger gorm is given                             *)
(* ===================================================================== *)

Module utils.

Inductive Level : Type := LvlDebug | LvlInfo | LvlWarn | LvlError.

(** What the logger is handed: the level, the message and the context
    [duration_ms], [rows_affected], [sql]. *)
Record Entry : Type := mkEntry {
  level : Level;
  msg : string;
  duration_ms : Z;
  rows_affected : Z;
  sql : string
}.

(** [func (l Logger) Trace(_, begin, fc, err)]: [elapsedMs] is
    [time.Since(begin).Milliseconds()], [fc] what the call of [fc()]
    returns.  The text of the statement is lowered as ASCII. *)
Definition Trace (elapsedMs : Z) (fc : string * Z) (err : option error)
  : Entry :=
  let (sql, rows) := fc in
  let i := strings.Index (strings.ToLower sql) "values" in
  let sql := if 0 <? i
             then String.substring 0 (Z.to_nat i) sql ++ "VALUES (...)"
             else sql in
  if elapsedMs <? 200
  then mkEntry LvlDebug "database operation" elapsedMs rows sql
  else mkEntry LvlWarn "database operation" elapsedMs rows sql.

End utils.

(* ===================================================================== *)
(** * package web3scanner                                                 *)
(* ===================================================================== *)

Module web3scanner.

(** [type Web3Scanner struct]: the database, with the storage behind it,
    and the flag [stopped]; [shutdown] is never called. *)
Record Web3Scanner : Type := mkWeb3Scanner {
  db : database.DB;
  stopped : bool
}.

Definition startAddress : string :=
  "0x0fa09C3A328792253f8dee7116848723b72a6d2e".

(** The conversion [uint64(n)] of an [int64]. *)
Definition uint64 (n : Z) : Z := n mod 2 ^ 64.

Section Start.
Variable Keccak256 : string -> list byte.
Variable addError : error -> error -> error.

(** The lines [Start] prints for one address. *)
Definition printItem (item : database.Addresses) : list string :=
  ["=======print address list==========";
   common.String_ Keccak256 (database.Address item);
   itoa (database.Timestamp item);
   itoa (database.AddressType item);
   "=======print address list=========="].

(** [func (ws *Web3Scanner) Start(_ context.Context) error], with the lines
    it prints and the scanner it leaves; [uuid_New] is what [uuid.New()]
    returns and [now] what [time.Now().Unix()] does, an [int64], the field
    [Timestamp] being a [uint64].  [None] is the panic of a nil
    [*gorm.DB]. *)
Definition Start (ws : Web3Scanner) (uuid_New : string) (now : Z)
  : option (list string * Web3Scanner * option error) :=
  match database.gorm_ (db ws) with
  | None => None
  | Some g =>
      let out := ["Web3Scanner start ........."] in
      let addressItem :=
        database.mkAddresses uuid_New (common.HexToAddress startAddress) 1
          startAddress (uint64 now) in
      let batchAddress := [addressItem] in
      let (g1, err) := database.StoreAddresses g batchAddress in
      let ws1 := mkWeb3Scanner (database.mkDB (Some g1)) (stopped ws) in
      match err with
      | Some e => Some ((out ++ ["store address fail"])%list, ws1, Some e)
      | None =>
          let (addrList, err) := database.GetAllAddresses addError g1 in
          match err with
          | Some e => Some (out, ws1, Some e)
          | None =>
              Some ((out ++ flat_map printItem addrList)%list, ws1, None)
          end
      end
  end.

End Start.

(** The record [Start] stores, for a key and a time. *)
Definition startItem (uuid : string) (now : Z) : database.Addresses :=
  database.mkAddresses uuid (common.HexToAddress startAddress) 1
    startAddress (uint64 now).

(** [func (ws *Web3Scanner) Stop(_ context.Context) error] *)
Definition Stop (ws : Web3Scanner)
  : list string * Web3Scanner * option error :=
  (["DbOp stop ........."], ws, None).

(** [func (ws *Web3Scanner) Stopped() bool] *)
Definition Stopped (ws : Web3Scanner) : bool := stopped ws.

End web3scanner.

(* ===================================================================== *)
(** * Inputs of the examples                                              *)
(* ===================================================================== *)

Module examples.

(** An operation that fails twice, then returns 42. *)
Definition twoFailures : retry.Op Z :=
  fun j => if (j <? 2)%nat then (0, Some (errorString "connection refused"))
           else (42, None).

(** An operation that succeeds at once. *)
Definition succeeds : retry.Op Z := fun _ => (7, None).

(** An operation that never succeeds. *)
Definition alwaysFails : retry.Op Z :=
  fun _ => (0, Some (errorString "connection refused")).

(** A backoff strategy. *)
Definition linear : retry.Strategy := fun i => 100 * (i + 1).

(** An operation with two results that fails twice, then returns 42 and
    [true]. *)
Definition twoFailures2 : nat -> Z * bool * option error :=
  fun j => if (j <? 2)%nat
           then (0, false, Some (errorString "connection refused"))
           else (42, true, None).

(** A [gorm.Open] that always fails. *)
Definition openFails : string -> nat -> option gorm.DB * option error :=
  fun _ _ => (None, Some (Sentinel "net.ErrClosed" "use of closed network connection")).

Definition noJitter : Z -> Z := fun _ => 0.

Definition localConfig : database.DBConfig :=
  database.mkDBConfig "localhost" 5432 "scanner" "" "".

(** A type in the manner of [big.Int], kept as the bytes of its magnitude:
    [Bytes] and [SetBytes] both have a pointer receiver. *)
Definition bigIntDecl : reflect.TypeDecl common.Address :=
  reflect.mkTypeDecl common.Address "big.Int" []
    (Some (reflect.PointerReceiver, fun r => r))
    (Some (reflect.PointerReceiver, fun _ b => b)).

(** [db.AddError] joining two errors in the manner of [%v; %w]. *)
Definition joinErrors : error -> error -> error :=
  fun a e => wrapError (errors.Error a) e.

(** A context cancelled before the call. *)
Definition cancelled : retry.Context :=
  retry.cancelledFrom 0 context.Canceled.

(** The address of [Web3Scanner.Start]. *)
Definition someAddress : common.Address :=
  common.HexToAddress "0x0fa09C3A328792253f8dee7116848723b72a6d2e".

(** Field types [common.Address], [*common.Address] and
    [**common.Address]. *)
Definition tAddress : reflect.GoType common.Address :=
  reflect.Named common.AddressDecl.
Definition tAddressPtr : reflect.GoType common.Address :=
  reflect.PointerTo tAddress.
Definition tAddressPtrPtr : reflect.GoType common.Address :=
  reflect.PointerTo tAddressPtr.

(** A stand-in for Keccak-256: every nibble above 7. *)
Definition allUpper : string -> list byte := fun _ => repeat Byte.xff 32.

(** Rows of table [addresses]: a user, the hot wallet, the cold wallet. *)
Definition rowUser : gorm.Row :=
  gorm.mkRow "3f0c" "0x00000000000000000000000000000000000000aa" 0 "pk-a" 1700000000.
Definition rowHot : gorm.Row :=
  gorm.mkRow "9b1e" "0x0fa09c3a328792253f8dee7116848723b72a6d2e" 1 "pk-b" 1700000001.
Definition rowCold : gorm.Row :=
  gorm.mkRow "0a77" "0x00000000000000000000000000000000000000cc" 2 "pk-c" 1700000002.

Definition table : gorm.DB := gorm.mkDB [rowUser; rowHot; rowCold] None.


(** A migrations folder and what is found there. *)
Definition migrations : filepath.Path := filepath.mkPath false ["migrations"].

Definition folder : filepath.Node :=
  filepath.Directory
    [("a.sql", filepath.RegularFile "CREATE TABLE a ();");
     ("sub", filepath.Directory [("b.sql", filepath.RegularFile "CREATE TABLE b ();")])].



Definition noMigration : database.Migration := database.mkMigration [] [].

(** A heap holding one zero value of a type, at address 0. *)
Definition heapOf (t : reflect.GoType common.Address)
  : reflect.Heap common.Address := [reflect.zeroOf t].

(** Records to store: the hot wallet of [table], a new user, and a record
    with a new key and the address of the hot wallet. *)
Definition hotItem : database.Addresses :=
  database.mkAddresses "9b1e" someAddress 1 "pk-b" 1700000001.
Definition newItem : database.Addresses :=
  database.mkAddresses "77aa"
    (common.HexToAddress "0x00000000000000000000000000000000000000dd")
    0 "pk-d" 1700000003.
Definition dupItem : database.Addresses :=
  database.mkAddresses "c4c4" someAddress 0 "pk-e" 1700000004.

(** A scanner on an empty table. *)
Definition newScanner : web3scanner.Web3Scanner :=
  web3scanner.mkWeb3Scanner (database.mkDB (Some (gorm.mkDB [] None))) false.

(** A storage that refuses the second script of [folder]. *)
Definition execFailsOnB : list string -> string -> option error :=
  fun _ script =>
    if String.eqb script "CREATE TABLE b ();"
    then Some (errorString "ERROR: syntax error")
    else None.

End examples.

(* ===================================================================== *)
(** * Properties                                                          *)
(* ===================================================================== *)

Module retry_facts.
Import retry examples.

Section Loop.
Context {T : Type}.
Variable empty : T.
Variable ctx : Context.
Variable maxAttempts : Z.
Variable strategy : Strategy.
Variable op : Op T.

Let loop := Do_loop empty ctx maxAttempts strategy op.

(** One iteration whose attempt fails, before the last attempt. *)
Lemma Do_loop_failed_attempt fuel i err w e :
  i < maxAttempts - 1 ->
  ctx (ctxPolls w) = None ->
  snd (op (opCalls w)) = Some e ->
  loop (S fuel) i err w
  = loop fuel (i + 1) (Some e) (advance strategy 1 i w).
Proof.
  intros Hi Hc Ho. unfold loop. cbn [Do_loop].
  replace (i <? maxAttempts) with true by (symmetry; apply Z.ltb_lt; lia).
  unfold bind at 1, ctx_Err. rewrite Hc.
  unfold bind at 1, invoke. cbn [opCalls ctxPolls slept].
  rewrite Ho.
  replace (i =? maxAttempts - 1) with false by (symmetry; apply Z.eqb_neq; lia).
  cbn [negb]. unfold bind, time_Sleep, advance.
  cbn [opCalls ctxPolls slept attempts map].
  rewrite !Nat.add_1_r. reflexivity.
Qed.

Lemma advance_S m i w :
  advance strategy m (i + 1) (advance strategy 1 i w)
  = advance strategy (S m) i w.
Proof.
  unfold advance. cbn [opCalls ctxPolls slept attempts map].
  rewrite <- app_assoc. cbn [app].
  f_equal; lia.
Qed.

(** [m] failed attempts in a row, none of them the last attempt. *)
Lemma Do_loop_failed_attempts m : forall fuel i err w,
  i + Z.of_nat m < maxAttempts ->
  (forall p, (p < m)%nat -> ctx (ctxPolls w + p)%nat = None) ->
  (forall j, (j < m)%nat -> snd (op (opCalls w + j)%nat) <> None) ->
  loop (m + fuel) i err w
  = loop fuel (i + Z.of_nat m)
      (match m with O => err | S m' => snd (op (opCalls w + m')%nat) end)
      (advance strategy m i w).
Proof.
  induction m as [|m IH]; intros fuel i err w Hi Hc Ho.
  - unfold advance. cbn [attempts map plus]. destruct w as [a b c].
    cbn [opCalls ctxPolls slept]. rewrite !Nat.add_0_r, app_nil_r, Z.add_0_r.
    reflexivity.
  - destruct (snd (op (opCalls w))) as [e|] eqn:He.
    2:{ exfalso. apply (Ho 0%nat); [lia|]. rewrite Nat.add_0_r. exact He. }
    cbn [plus].
    rewrite (Do_loop_failed_attempt (m + fuel) i err w e); [|lia| |exact He].
    2:{ rewrite <- (Nat.add_0_r (ctxPolls w)). apply Hc. lia. }
    rewrite IH.
    + rewrite advance_S.
      replace (i + 1 + Z.of_nat m) with (i + Z.of_nat (S m)) by lia.
      f_equal.
      destruct m as [|m'].
      * rewrite Nat.add_0_r. symmetry. exact He.
      * unfold advance. cbn [opCalls]. f_equal. f_equal. lia.
    + lia.
    + intros p Hp. unfold advance. cbn [ctxPolls].
      replace (ctxPolls w + 1 + p)%nat with (ctxPolls w + S p)%nat by lia.
      apply Hc. lia.
    + intros j Hj. unfold advance. cbn [opCalls].
      replace (opCalls w + 1 + j)%nat with (opCalls w + S j)%nat by lia.
      apply Ho. lia.
Qed.

(** An iteration whose attempt succeeds. *)
Lemma Do_loop_success fuel i err w v :
  i < maxAttempts ->
  ctx (ctxPolls w) = None ->
  op (opCalls w) = (v, None) ->
  loop (S fuel) i err w
  = (Some (v, None),
     mkWorld (S (opCalls w)) (S (ctxPolls w)) (slept w)).
Proof.
  intros Hi Hc Ho. unfold loop. cbn [Do_loop].
  replace (i <? maxAttempts) with true by (symmetry; apply Z.ltb_lt; lia).
  unfold bind at 1, ctx_Err. rewrite Hc.
  unfold bind, invoke, ret. cbn [opCalls ctxPolls slept].
  rewrite Ho. reflexivity.
Qed.

(** An iteration that finds the context cancelled. *)
Lemma Do_loop_cancelled fuel i err w e :
  i < maxAttempts ->
  ctx (ctxPolls w) = Some e ->
  loop (S fuel) i err w
  = (Some (empty, ctx (S (ctxPolls w))),
     mkWorld (opCalls w) (S (S (ctxPolls w))) (slept w)).
Proof.
  intros Hi Hc. unfold loop. cbn [Do_loop].
  replace (i <? maxAttempts) with true by (symmetry; apply Z.ltb_lt; lia).
  unfold bind at 1, ctx_Err. rewrite Hc.
  unfold bind, ret. cbn [opCalls ctxPolls slept]. reflexivity.
Qed.

(** The last attempt, failing: no sleep, and the loop is left. *)
Lemma Do_loop_last_attempt_fails fuel i err w e :
  i = maxAttempts - 1 ->
  ctx (ctxPolls w) = None ->
  snd (op (opCalls w)) = Some e ->
  loop (S fuel) i err w
  = (Some (empty, Some (ErrFailedPermanently maxAttempts (Some e))),
     mkWorld (S (opCalls w)) (S (ctxPolls w)) (slept w)).
Proof.
  intros Hi Hc Ho. unfold loop. cbn [Do_loop].
  replace (i <? maxAttempts) with true by (symmetry; apply Z.ltb_lt; lia).
  unfold bind at 1, ctx_Err. rewrite Hc.
  unfold bind at 1, invoke. cbn [opCalls ctxPolls slept].
  rewrite Ho.
  replace (i =? maxAttempts - 1) with true by (symmetry; apply Z.eqb_eq; lia).
  cbn [negb]. unfold bind, ret.
  destruct fuel; cbn [Do_loop];
    (replace (i + 1 <? maxAttempts) with false
       by (symmetry; apply Z.ltb_ge; lia));
    reflexivity.
Qed.

Lemma length_attempts m : forall i, List.length (attempts i m) = m.
Proof. induction m; intros; cbn; [reflexivity | now rewrite IHm]. Qed.

Lemma advance_fresh m :
  advance strategy m 0 fresh = mkWorld m m (map strategy (attempts 0 m)).
Proof. reflexivity. Qed.

(** [k] failures, then a success, all before a live context. *)
Lemma Do_success_after (k : nat) (v : T) :
  Z.of_nat k < maxAttempts ->
  (forall p, (p <= k)%nat -> ctx p = None) ->
  (forall j, (j < k)%nat -> snd (op j) <> None) ->
  op k = (v, None) ->
  Do empty ctx maxAttempts strategy op fresh
  = (Some (v, None),
     mkWorld (S k) (S k) (map strategy (attempts 0 k))).
Proof.
  intros Hk Hc Hf Hs. unfold Do.
  replace (maxAttempts <? 1) with false by (symmetry; apply Z.ltb_ge; lia).
  replace (Z.to_nat maxAttempts)
    with (k + S (Z.to_nat maxAttempts - S k))%nat by lia.
  fold loop.
  rewrite Do_loop_failed_attempts; cbn [fresh opCalls ctxPolls plus].
  - rewrite advance_fresh.
    rewrite Do_loop_success with (v := v); cbn [opCalls ctxPolls slept];
      [reflexivity | lia | apply Hc; lia | exact Hs].
  - lia.
  - intros p Hp. apply Hc. lia.
  - intros j Hj. apply Hf. exact Hj.
Qed.

(** Every one of the [maxAttempts] attempts fails, before a live
    context. *)
Lemma Do_exhausted :
  1 <= maxAttempts ->
  (forall p, Z.of_nat p < maxAttempts -> ctx p = None) ->
  (forall j, Z.of_nat j < maxAttempts -> snd (op j) <> None) ->
  Do empty ctx maxAttempts strategy op fresh
  = (Some (empty,
           Some (ErrFailedPermanently maxAttempts
                   (snd (op (Z.to_nat maxAttempts - 1)%nat)))),
     mkWorld (Z.to_nat maxAttempts) (Z.to_nat maxAttempts)
       (map strategy (attempts 0 (Z.to_nat maxAttempts - 1)))).
Proof.
  intros Hn Hc Hf. unfold Do.
  replace (maxAttempts <? 1) with false by (symmetry; apply Z.ltb_ge; lia).
  set (m := (Z.to_nat maxAttempts - 1)%nat).
  replace (Z.to_nat maxAttempts) with (m + 1)%nat by (unfold m; lia).
  fold loop.
  rewrite Do_loop_failed_attempts; cbn [fresh opCalls ctxPolls plus].
  - rewrite advance_fresh.
    destruct (snd (op m)) as [e|] eqn:He.
    2:{ exfalso. apply (Hf m); [unfold m; lia | exact He]. }
    rewrite Do_loop_last_attempt_fails with (e := e);
      cbn [opCalls ctxPolls slept].
    + rewrite !Nat.add_1_r. reflexivity.
    + unfold m; lia.
    + apply Hc. unfold m; lia.
    + exact He.
  - unfold m; lia.
  - intros p Hp. apply Hc. unfold m in Hp; lia.
  - intros j Hj. apply Hf. unfold m in Hj; lia.
Qed.

(** [j] failures, then the context is found cancelled. *)
Lemma Do_cancelled_after (j : nat) (e : error) :
  Z.of_nat j < maxAttempts ->
  (forall p, (p < j)%nat -> ctx p = None) ->
  ctx j = Some e ->
  (forall i, (i < j)%nat -> snd (op i) <> None) ->
  Do empty ctx maxAttempts strategy op fresh
  = (Some (empty, ctx (S j)),
     mkWorld j (S (S j)) (map strategy (attempts 0 j))).
Proof.
  intros Hj Hc He Hf. unfold Do.
  replace (maxAttempts <? 1) with false by (symmetry; apply Z.ltb_ge; lia).
  replace (Z.to_nat maxAttempts)
    with (j + S (Z.to_nat maxAttempts - S j))%nat by lia.
  fold loop.
  rewrite Do_loop_failed_attempts; cbn [fresh opCalls ctxPolls plus].
  - rewrite advance_fresh.
    rewrite Do_loop_cancelled with (e := e); cbn [opCalls ctxPolls slept];
      [reflexivity | lia | exact He].
  - lia.
  - intros p Hp. apply Hc. exact Hp.
  - intros i Hi. apply Hf. exact Hi.
Qed.

(** [Do] never runs out of fuel: it returns. *)
Lemma Do_loop_returns fuel : forall i err w,
  maxAttempts - i <= Z.of_nat fuel ->
  fst (loop fuel i err w) <> None.
Proof.
  induction fuel as [|fuel IH]; intros i err w Hf; unfold loop;
    cbn [Do_loop]; destruct (Z.ltb_spec i maxAttempts) as [Hi|Hi];
    try (unfold ret; cbn; discriminate); try lia.
  unfold bind at 1, ctx_Err.
  destruct (ctx (ctxPolls w)).
  { unfold bind, ret; cbn; discriminate. }
  unfold bind at 1, invoke. cbn [opCalls ctxPolls slept].
  destruct (snd (op (opCalls w))).
  2:{ unfold ret; cbn; discriminate. }
  unfold bind at 1.
  destruct (negb (i =? maxAttempts - 1)); cbn [time_Sleep ret];
    apply IH; lia.
Qed.

End Loop.

Lemma firstSuccess_Some {T} (op : Op T) m : forall j k,
  firstSuccess op j m = Some k ->
  (j <= k < j + m)%nat /\ snd (op k) = None
  /\ (forall x, (j <= x < k)%nat -> snd (op x) <> None).
Proof.
  induction m as [|m IH]; intros j k H; cbn in H; [discriminate|].
  destruct (snd (op j)) eqn:E.
  - apply IH in H. destruct H as (H1 & H2 & H3).
    split; [lia|]. split; [exact H2|].
    intros x Hx. destruct (Nat.eq_dec x j) as [->|Hne].
    + rewrite E. discriminate.
    + apply H3. lia.
  - injection H as <-. split; [lia|]. split; [exact E|].
    intros x Hx. lia.
Qed.

Lemma firstSuccess_None {T} (op : Op T) m : forall j,
  firstSuccess op j m = None ->
  forall x, (j <= x < j + m)%nat -> snd (op x) <> None.
Proof.
  induction m as [|m IH]; intros j H x Hx; [lia|]. cbn in H.
  destruct (snd (op j)) eqn:E; [|discriminate].
  destruct (Nat.eq_dec x j) as [->|Hne].
  - rewrite E. discriminate.
  - apply (IH (S j)); [exact H | lia].
Qed.

(* ------------------------------------------------------------------- *)
(** ** The retry executor *)

(** C1, as stated, fails: with a context that is already cancelled, [Do]
    with [maxAttempts = 3] and an operation that succeeds on its first
    invocation ([k = 0]) returns the context's error and never invokes
    the operation. *)
Lemma Do_cancelled_context_no_success :
  let run := Do 0 cancelled 3 linear succeeds fresh in
  (1 <= 3 /\ Z.of_nat 0 < 3 /\ succeeds 0%nat = (7, None))
  /\ run = (Some (0, Some context.Canceled), mkWorld 0 2 [])
  /\ fst run <> Some (7, None)
  /\ opCalls (snd run) <> 1%nat.
Proof.
  cbv zeta. repeat split; try lia; try reflexivity; cbn; discriminate.
Qed.

(** C1 (amended): for every [maxAttempts = n >= 1], every backoff
    strategy and every operation that fails on its first [k < n]
    invocations and succeeds on invocation [k+1], provided the context
    reports no cancellation at the first [k+1] attempt boundaries, [Do]
    returns the success value with a nil error, has invoked the operation
    exactly [k+1] times and has slept exactly [k] times, once after each
    failed attempt, for the durations the strategy gives to attempts
    [0 .. k-1]. *)
Theorem Do_succeeds_after_failures {T : Type} (empty : T) (ctx : Context)
    (n : Z) (strategy : Strategy) (op : Op T) (k : nat) (v : T) :
  1 <= n ->
  Z.of_nat k < n ->
  (forall p, (p <= k)%nat -> ctx p = None) ->
  (forall j, (j < k)%nat -> snd (op j) <> None) ->
  op k = (v, None) ->
  exists w,
    Do empty ctx n strategy op fresh = (Some (v, None), w)
    /\ opCalls w = S k
    /\ slept w = map strategy (attempts 0 k)
    /\ List.length (slept w) = k.
Proof.
  intros _ Hk Hc Hf Hs.
  eexists. split; [apply Do_success_after; eassumption|].
  cbn [opCalls slept]. split; [reflexivity|]. split; [reflexivity|].
  now rewrite length_map, length_attempts.
Qed.

Lemma Do_succeeds_after_failures_witness :
  exists w,
    Do 0 Background 5 linear twoFailures fresh = (Some (42, None), w)
    /\ opCalls w = 3%nat
    /\ slept w = map linear (attempts 0 2)
    /\ List.length (slept w) = 2%nat.
Proof.
  apply (Do_succeeds_after_failures 0 Background 5 linear twoFailures 2 42).
  - lia.
  - cbn. lia.
  - intros p _. reflexivity.
  - intros j Hj. destruct j as [|[|j]]; cbn; [discriminate|discriminate|lia].
  - reflexivity.
Defined.

(** C4, as stated, fails: with a context that is already cancelled, [Do]
    with [maxAttempts = 2] and an operation that fails on every
    invocation returns the context's error, not the "failed permanently"
    error. *)
Lemma Do_cancelled_context_not_permanent :
  let run := Do 0 cancelled 2 linear alwaysFails fresh in
  (1 <= 2 /\ forall j, snd (alwaysFails j) <> None)
  /\ run = (Some (0, Some context.Canceled), mkWorld 0 2 [])
  /\ forall last,
       fst run <> Some (0, Some (ErrFailedPermanently 2 last)).
Proof.
  cbv zeta. split; [split; [lia | intros j; cbn; discriminate]|].
  split; [reflexivity|]. intros last. cbn. discriminate.
Qed.

(** C4 (amended): for every [maxAttempts = n >= 1] and every operation
    that fails on all [n] invocations, provided the context reports no
    cancellation at the [n] attempt boundaries, [Do] returns the
    "failed permanently" error, which records the attempt count [n] and
    wraps the error of the last, [n]-th, invocation: [Unwrap] returns
    that error.  The operation has been invoked [n] times, with [n-1]
    sleeps. *)
Theorem Do_fails_permanently {T : Type} (empty : T) (ctx : Context)
    (n : Z) (strategy : Strategy) (op : Op T) :
  1 <= n ->
  (forall p, Z.of_nat p < n -> ctx p = None) ->
  (forall j, Z.of_nat j < n -> snd (op j) <> None) ->
  exists lastErr w,
    snd (op (Z.to_nat n - 1)%nat) = Some lastErr
    /\ Do empty ctx n strategy op fresh
       = (Some (empty, Some (ErrFailedPermanently n (Some lastErr))), w)
    /\ errors.Unwrap (ErrFailedPermanently n (Some lastErr)) = Some lastErr
    /\ opCalls w = Z.to_nat n
    /\ List.length (slept w) = (Z.to_nat n - 1)%nat.
Proof.
  intros Hn Hc Hf.
  destruct (snd (op (Z.to_nat n - 1)%nat)) as [lastErr|] eqn:He.
  2:{ exfalso. apply (Hf (Z.to_nat n - 1)%nat); [lia | exact He]. }
  exists lastErr. eexists. split; [reflexivity|].
  split; [rewrite <- He; apply Do_exhausted; assumption|].
  cbn [opCalls slept errors.Unwrap].
  split; [reflexivity|]. split; [reflexivity|].
  now rewrite length_map, length_attempts.
Qed.

Lemma Do_fails_permanently_witness :
  exists lastErr w,
    snd (twoFailures (Z.to_nat 2 - 1)%nat) = Some lastErr
    /\ Do 0 Background 2 linear twoFailures fresh
       = (Some (0, Some (ErrFailedPermanently 2 (Some lastErr))), w)
    /\ errors.Unwrap (ErrFailedPermanently 2 (Some lastErr)) = Some lastErr
    /\ opCalls w = Z.to_nat 2
    /\ List.length (slept w) = (Z.to_nat 2 - 1)%nat.
Proof.
  apply (Do_fails_permanently 0 Background 2 linear twoFailures).
  - lia.
  - intros p _. reflexivity.
  - intros j Hj. destruct j as [|[|j]]; cbn; [discriminate|discriminate|lia].
Defined.

(** C5: for every [maxAttempts] that is zero or negative, [Do] and [Do2]
    fail at once with the configuration error, whatever the context and
    the strategy; the world is left as it was: the operation is not
    invoked and nothing sleeps. *)
Theorem Do_rejects_maxAttempts_below_1 {T U : Type} (emptyT : T)
    (emptyU : U) (ctx : Context) (n : Z) (strategy : Strategy)
    (op : Op T) (op2 : nat -> T * U * option error) (w : World) :
  n < 1 ->
  Do emptyT ctx n strategy op w
  = (Some (emptyT, Some (errNeedAttempts n)), w)
  /\ Do2 emptyT emptyU ctx n strategy op2 w
     = (Some (emptyT, emptyU, Some (errNeedAttempts n)), w).
Proof.
  intros Hn. unfold Do2, Do, bind, ret.
  replace (n <? 1) with true by (symmetry; apply Z.ltb_lt; lia).
  split; reflexivity.
Qed.

Lemma Do_rejects_maxAttempts_below_1_witness :
  Do 0 cancelled (-3) linear twoFailures fresh
  = (Some (0, Some (errNeedAttempts (-3))), fresh)
  /\ Do2 0 true cancelled (-3) linear
       (fun _ => (1, false, None)) fresh
     = (Some (0, true, Some (errNeedAttempts (-3))), fresh).
Proof.
  apply (Do_rejects_maxAttempts_below_1 0 true
           cancelled (-3) linear twoFailures
           (fun _ => (1, false, None)) fresh).
  lia.
Defined.

(** C6: for every [maxAttempts = n >= 1], when the context is found
    cancelled, with error [e], at the boundary of attempt [j < n] (at the
    call already, for [j = 0]) after [j] failed attempts, [Do] returns
    the context's error; the attempt that was about to start is not made:
    the operation has been invoked exactly [j] times, none at all for a
    context cancelled at the call, and the only sleeps are the [j] ones
    that followed the failed attempts. *)
Theorem Do_returns_context_error {T : Type} (empty : T) (ctx : Context)
    (n : Z) (strategy : Strategy) (op : Op T) (j : nat) (e : error) :
  1 <= n ->
  Z.of_nat j < n ->
  (forall p, (p < j)%nat -> ctx p = None) ->
  (forall p, (j <= p)%nat -> ctx p = Some e) ->
  (forall i, (i < j)%nat -> snd (op i) <> None) ->
  exists w,
    Do empty ctx n strategy op fresh = (Some (empty, Some e), w)
    /\ opCalls w = j
    /\ slept w = map strategy (attempts 0 j)
    /\ (j = 0%nat -> opCalls w = 0%nat /\ slept w = []).
Proof.
  intros _ Hj Hlive Hdead Hf.
  eexists. split.
  - rewrite <- (Hdead (S j)) by lia.
    apply Do_cancelled_after with (e := e); try assumption.
    apply Hdead. lia.
  - cbn [opCalls slept]. split; [reflexivity|]. split; [reflexivity|].
    intros ->. split; reflexivity.
Qed.

Lemma Do_returns_context_error_witness :
  exists w,
    Do 0 cancelled 5 linear twoFailures fresh
    = (Some (0, Some context.Canceled), w)
    /\ opCalls w = 0%nat
    /\ slept w = map linear (attempts 0 0)
    /\ (0%nat = 0%nat -> opCalls w = 0%nat /\ slept w = []).
Proof.
  apply (Do_returns_context_error 0 cancelled 5
           linear twoFailures 0 context.Canceled).
  - lia.
  - cbn. lia.
  - intros p Hp. lia.
  - intros p _. reflexivity.
  - intros i Hi. lia.
Defined.

End retry_facts.

Module serializers_facts.
Import reflect serializers.

Lemma fromHexChar_hi (v : byte) :
  hex.fromHexChar (hex.hexdigit (N.shiftr (Byte.to_N v) 4)) = Some (N.shiftr (Byte.to_N v) 4).
Proof. destruct v; reflexivity. Qed.
Lemma fromHexChar_lo (v : byte) :
  hex.fromHexChar (hex.hexdigit (N.land (Byte.to_N v) 15)) = Some (N.land (Byte.to_N v) 15).
Proof. destruct v; reflexivity. Qed.
Lemma mkByte_nibbles (v : byte) :
  hex.mkByte (N.shiftr (Byte.to_N v) 4) (N.land (Byte.to_N v) 15) = v.
Proof. destruct v; reflexivity. Qed.

Lemma DecodeString_EncodeToString (b : list byte) :
  hex.DecodeString (hex.EncodeToString b) = (b, None).
Proof.
  induction b as [|v b IH]; [reflexivity|].
  cbn [hex.EncodeToString hex.DecodeString].
  rewrite fromHexChar_hi, fromHexChar_lo, IH, mkByte_nibbles. reflexivity.
Qed.

Lemma Decode_Encode (b : list byte) :
  hexutil.Decode (hexutil.Encode b) = (b, None).
Proof.
  unfold hexutil.Decode, hexutil.Encode. cbn.
  rewrite DecodeString_EncodeToString. reflexivity.
Qed.



Ltac heap_simp :=
  cbv beta iota delta
    [bind ret panic New alloc ValueOf Value_Interface contents Value_Elem
     Value_Kind Value_Set Value_IsNil Type_Elem Type_Kind Kind_eqb zeroOf
     asSetBytesInterface asBytesInterface].


Section WithRaw.
Context {Raw : Type}.
Implicit Types (h : Heap Raw) (v : GoValue Raw).

Lemma New_eq (t : GoType Raw) h :
  New t h = Some (Direct (Ptr t (Some (List.length h))), (h ++ [zeroOf t])%list).
Proof. reflexivity. Qed.

Lemma load_last h v : load (List.length h) (h ++ [v])%list = Some (v, (h ++ [v])%list).
Proof.
  unfold load. rewrite nth_error_app2, Nat.sub_diag by lia. reflexivity.
Qed.

Lemma store_last h v v' :
  store (List.length h) v' (h ++ [v])%list = Some (tt, (h ++ [v'])%list).
Proof.
  unfold store. rewrite length_app. cbn [List.length].
  replace (List.length h <? List.length h + 1)%nat with true
    by (symmetry; apply Nat.ltb_lt; lia).
  rewrite firstn_app, Nat.sub_diag, firstn_all, firstn_O, app_nil_r.
  rewrite skipn_all2 by (rewrite length_app; cbn; lia). reflexivity.
Qed.

Lemma store_lt h dst v :
  (dst < List.length h)%nat ->
  exists h', store dst v h = Some (tt, h')
    /\ nth_error h' dst = Some v
    /\ List.length h' = List.length h
    /\ forall l, l <> dst -> nth_error h' l = nth_error h l.
Proof.
  intros Hl. unfold store.
  replace (dst <? List.length h)%nat with true by (symmetry; apply Nat.ltb_lt; lia).
  eexists. split; [reflexivity|].
  assert (Hf : List.length (firstn dst h) = dst) by (rewrite length_firstn; lia).
  split; [|split].
  - rewrite nth_error_app2 by lia. rewrite Hf, Nat.sub_diag. reflexivity.
  - rewrite length_app. cbn [List.length]. rewrite Hf, length_skipn. lia.
  - intros l Hne. destruct (Nat.lt_ge_cases l dst) as [Hlt|Hge].
    + rewrite nth_error_app1 by lia. rewrite nth_error_firstn.
      replace (l <? dst)%nat with true by (symmetry; apply Nat.ltb_lt; lia). reflexivity.
    + rewrite nth_error_app2 by lia. rewrite Hf.
      destruct (l - dst)%nat as [|n] eqn:E; [lia|]. cbn [nth_error].
      rewrite nth_error_skipn. f_equal. lia.
Qed.


Lemma load_at0 h a t :
  load (List.length h) ((h ++ [a]) ++ t)%list = Some (a, ((h ++ [a]) ++ t)%list).
Proof.
  unfold load. rewrite <- app_assoc. cbn [app].
  rewrite nth_error_app2, Nat.sub_diag by lia. reflexivity.
Qed.

Lemma store_at0 h a a' t :
  store (List.length h) a' ((h ++ [a]) ++ t)%list = Some (tt, ((h ++ [a']) ++ t)%list).
Proof.
  unfold store. rewrite <- !app_assoc. cbn [app].
  rewrite length_app. cbn [List.length].
  replace (List.length h <? List.length h + S (List.length t))%nat with true
    by (symmetry; apply Nat.ltb_lt; lia).
  rewrite firstn_app, Nat.sub_diag, firstn_all, firstn_O, app_nil_r.
  rewrite skipn_app, skipn_all2 by lia.
  replace (S (List.length h) - List.length h)%nat with 1%nat by lia.
  reflexivity.
Qed.

Lemma load_end X v l :
  l = List.length X -> load l (X ++ [v])%list = Some (v, (X ++ [v])%list).
Proof. intros ->. apply load_last. Qed.

Lemma store_end X v v' l :
  l = List.length X -> store l v' (X ++ [v])%list = Some (tt, (X ++ [v'])%list).
Proof. intros ->. apply store_last. Qed.

Lemma Scan_named (d : TypeDecl Raw) recv f s b dst h :
  mSetBytes d = Some (recv, f) ->
  hexutil.Decode s = (b, None) ->
  (dst < List.length h)%nat ->
  exists h',
    BytesSerializer.Scan (Named d) dst (Some (DBString s)) h = Some (None, h')
    /\ nth_error h' dst = Some (Val d (receiverEffect recv f (tzero d) b)).
Proof.
  intros Hm Hd Hl. unfold BytesSerializer.Scan. rewrite Hd.
  heap_simp. rewrite Hm. heap_simp.
  destruct recv; cbn [receiverEffect].
  - rewrite !load_last.
    destruct (store_lt (h ++ [Val d (tzero d)])%list dst (Val d (tzero d)))
      as (h' & Hs & Hn & _).
    { rewrite length_app. lia. }
    rewrite Hs. eexists. split; [reflexivity | exact Hn].
  - rewrite load_last, store_last, load_last.
    destruct (store_lt (h ++ [Val d (f (tzero d) b)])%list dst (Val d (f (tzero d) b)))
      as (h' & Hs & Hn & _).
    { rewrite length_app. lia. }
    rewrite Hs. eexists. split; [reflexivity | exact Hn].
Qed.


Lemma Scan_double_pointer (e : GoType Raw) s b dst h :
  hexutil.Decode s = (b, None) ->
  exists h' l,
    BytesSerializer.Scan (PointerTo (PointerTo e)) dst (Some (DBString s)) h
    = Some (Some (errNoSetBytes (Ptr (PointerTo e) (Some l))), h').
Proof.
  intros Hd. unfold BytesSerializer.Scan. rewrite Hd.
  heap_simp. rewrite load_last. heap_simp.
  rewrite store_at0, load_at0. heap_simp.
  eexists. eexists. reflexivity.
Qed.

Lemma Scan_no_SetBytes_named (d : TypeDecl Raw) s b dst h :
  mSetBytes d = None ->
  hexutil.Decode s = (b, None) ->
  exists h' l,
    BytesSerializer.Scan (Named d) dst (Some (DBString s)) h
    = Some (Some (errNoSetBytes (Ptr (Named d) (Some l))), h').
Proof.
  intros Hm Hd. unfold BytesSerializer.Scan. rewrite Hd.
  heap_simp. rewrite Hm. eexists. eexists. reflexivity.
Qed.

Lemma Scan_no_SetBytes_pointer (d : TypeDecl Raw) s b dst h :
  mSetBytes d = None ->
  hexutil.Decode s = (b, None) ->
  exists h' l,
    BytesSerializer.Scan (PointerTo (Named d)) dst (Some (DBString s)) h
    = Some (Some (errNoSetBytes (Ptr (Named d) (Some l))), h').
Proof.
  intros Hm Hd. unfold BytesSerializer.Scan. rewrite Hd.
  heap_simp. rewrite load_last. heap_simp.
  rewrite store_at0, load_at0. heap_simp. rewrite Hm.
  eexists. eexists. reflexivity.
Qed.


Lemma Value_named (d : TypeDecl Raw) g r h :
  mBytes d = Some (ValueReceiver, g) ->
  BytesSerializer.Value (Named d) (Some (Val d r)) h
  = Some ((Some (hexutil.Encode (g r)), None), h).
Proof.
  intros Hb. unfold BytesSerializer.Value. heap_simp. rewrite Hb. reflexivity.
Qed.

Lemma Value_pointer (d d' : TypeDecl Raw) recv g l r h :
  mBytes d = Some (recv, g) ->
  nth_error h l = Some (Val d' r) ->
  BytesSerializer.Value (PointerTo (Named d)) (Some (Ptr (Named d) (Some l))) h
  = Some ((Some (hexutil.Encode (g r)), None), h).
Proof.
  intros Hb Hl. unfold BytesSerializer.Value. heap_simp. rewrite Hb.
  unfold load. rewrite Hl. reflexivity.
Qed.


End WithRaw.

Lemma string_pairs_ind (P : string -> Prop) :
  P EmptyString ->
  (forall c, P (String c EmptyString)) ->
  (forall c1 c2 s, P s -> P (String c1 (String c2 s))) ->
  forall s, P s.
Proof.
  intros H0 H1 H2. fix IH 1. intros [|c1 [|c2 s]].
  - exact H0.
  - apply H1.
  - apply H2. apply IH.
Qed.

Lemma DecodeString_ok_iff (s : string) :
  snd (hex.DecodeString s) = None
  <-> Nat.even (String.length s) && hexutil.allHex s = true.
Proof.
  induction s as [|c|c1 c2 s IH] using string_pairs_ind.
  - cbn. tauto.
  - cbn. destruct (hex.fromHexChar c); cbn; split; discriminate.
  - cbn [hex.DecodeString hexutil.allHex String.length Nat.even].
    destruct (hex.fromHexChar c1); [|cbn; rewrite andb_false_r; split; discriminate].
    destruct (hex.fromHexChar c2); [|cbn; rewrite andb_false_r; split; discriminate].
    destruct (hex.DecodeString s) as [bs err]. cbn [snd] in *. exact IH.
Qed.

(** [hexutil.Decode] succeeds on the well-formed prefixed hex strings, and
    on no other. *)
Lemma Decode_ok_iff (s : string) :
  snd (hexutil.Decode s) = None <-> hexutil.wellFormed s = true.
Proof.
  unfold hexutil.Decode, hexutil.wellFormed.
  destruct s as [|c0 s]; [cbn; split; discriminate|].
  cbn [String.length Nat.eqb].
  destruct (hexutil.has0xPrefix (String c0 s)); cbn [negb andb].
  - pose proof (DecodeString_ok_iff (hexutil.drop2 (String c0 s))) as H.
    destruct (hex.DecodeString (hexutil.drop2 (String c0 s))) as [b err].
    cbn [snd] in *. destruct err; cbn [option_map]; rewrite <- H;
      split; congruence.
  - cbn. split; discriminate.
Qed.

(* --------------------------------------------------------------------- *)
(** ** The bytes serializer *)

(** A stored value that is not a string: the type-mismatch error, which
    names the type; nothing else happens. *)
Lemma Scan_not_a_string {Raw} (ft : GoType Raw) dst (dbValue : DBValue) h :
  (forall s, dbValue <> DBString s) ->
  BytesSerializer.Scan ft dst (Some dbValue) h
  = Some (Some (errorString ("expected hex string as the database value: "
                               ++ dbTypeString dbValue)), h).
Proof.
  intros Hs. destruct dbValue; try reflexivity. exfalso. now apply (Hs s).
Qed.

(** A string that is not well-formed prefixed hex: an error that wraps the
    error of [hexutil.Decode]; nothing else happens. *)
Lemma Scan_malformed_hex {Raw} (ft : GoType Raw) dst (s : string) h :
  hexutil.wellFormed s = false ->
  exists err,
    snd (hexutil.Decode s) = Some err
    /\ BytesSerializer.Scan ft dst (Some (DBString s)) h
       = Some (Some (wrapError "failed to decode database value" err), h)
    /\ errors.Unwrap (wrapError "failed to decode database value" err)
       = Some err.
Proof.
  intros Hw. unfold BytesSerializer.Scan.
  destruct (hexutil.Decode s) as [b [err|]] eqn:Hd.
  - exists err. repeat split.
  - exfalso. assert (H : snd (hexutil.Decode s) = None) by now rewrite Hd.
    apply Decode_ok_iff in H. congruence.
Qed.

(** A target type without [SetBytes], itself or behind one pointer: the
    capability-mismatch error. *)
Lemma Scan_without_SetBytes {Raw} (d : TypeDecl Raw) ft dst s h :
  ft = Named d \/ ft = PointerTo (Named d) ->
  mSetBytes d = None ->
  hexutil.wellFormed s = true ->
  exists h' l,
    BytesSerializer.Scan ft dst (Some (DBString s)) h
    = Some (Some (errorString
                    ("field does not satisfy the `SetBytes([]byte)` interface: *"
                       ++ tname d)), h')
    /\ typeString (typeOf (Ptr (Named d) (Some l))) = "*" ++ tname d.
Proof.
  intros Hft Hm Hw. apply Decode_ok_iff in Hw.
  destruct (hexutil.Decode s) as [b err] eqn:Hd. cbn in Hw. subst err.
  destruct Hft as [-> | ->].
  - destruct (Scan_no_SetBytes_named d s b dst h Hm Hd) as (h' & l & H).
    exists h', l. split; [exact H | reflexivity].
  - destruct (Scan_no_SetBytes_pointer d s b dst h Hm Hd) as (h' & l & H).
    exists h', l. split; [exact H | reflexivity].
Qed.



Ltac break_match :=
  match goal with
  | |- context [match ?x with _ => _ end] => destruct x eqn:?
  end.

(** Whatever the field type, the destination and the stored value, [Scan]
    never returns the unsupported-depth error: the branch that makes it is
    not reached. *)
Lemma Scan_never_reports_depth {Raw} (ft : GoType Raw) dst dbValue h :
  option_map fst (BytesSerializer.Scan ft dst dbValue h)
  <> Some (Some errDoublePointer).
Proof.
  unfold BytesSerializer.Scan.
  destruct dbValue as [[n|n|b|b|s|n]|]; try (cbn; discriminate).
  destruct (hexutil.Decode s) as [b [err|]]; [cbn; discriminate|].
  destruct ft as [d|elem].
  - heap_simp. repeat break_match; cbn; discriminate.
  - heap_simp. rewrite load_last. heap_simp.
    rewrite store_at0, load_at0. heap_simp.
    repeat break_match; cbn; discriminate.
Qed.

(** C3, on a doubly-indirected target: [Scan] with a field of type [**T]
    and a well-formed hex string does not fail with the unsupported-depth
    error.  The test of the depth, [nestedField.Elem().Kind() ==
    reflect.Pointer], looks at the pointee of a nil pointer, whose kind is
    [Invalid]; the scan goes on and fails where [**T] has no [SetBytes],
    with the capability-mismatch error. *)
Theorem Scan_double_pointer_capability_error {Raw : Type}
    (elem : GoType Raw) (dst : nat) (s : string) (h : Heap Raw) :
  hexutil.wellFormed s = true ->
  exists h',
    BytesSerializer.Scan (PointerTo (PointerTo elem)) dst (Some (DBString s)) h
    = Some (Some (errorString
                    ("field does not satisfy the `SetBytes([]byte)` interface: **"
                       ++ typeString elem)), h')
    /\ errorString
         ("field does not satisfy the `SetBytes([]byte)` interface: **"
            ++ typeString elem)
       <> errDoublePointer.
Proof.
  intros Hw. apply Decode_ok_iff in Hw.
  destruct (hexutil.Decode s) as [b err] eqn:Hd. cbn in Hw. subst err.
  destruct (Scan_double_pointer elem s b dst h Hd) as (h' & l & H).
  exists h'. split; [exact H|]. cbn. discriminate.
Qed.

Lemma Scan_double_pointer_capability_error_witness :
  exists h',
    BytesSerializer.Scan examples.tAddressPtrPtr 0 (Some (DBString "0x00"))
      (examples.heapOf examples.tAddressPtrPtr)
    = Some (Some (errorString
                    ("field does not satisfy the `SetBytes([]byte)` interface: **"
                       ++ typeString examples.tAddress)), h')
    /\ errorString
         ("field does not satisfy the `SetBytes([]byte)` interface: **"
            ++ typeString examples.tAddress)
       <> errDoublePointer.
Proof.
  apply (Scan_double_pointer_capability_error examples.tAddress 0 "0x00"
           (examples.heapOf examples.tAddressPtrPtr)).
  reflexivity.
Defined.

End serializers_facts.

Module database_facts.
Import database.


(** The scan of column [address]: a well-formed text gives the address of
    its bytes, anything else the error of the decoder, wrapped. *)
Lemma scanAddress_spec (text : string) :
  match hexutil.Decode text with
  | (b, None) => scanAddress text = (common.BytesToAddress b, None)
  | (_, Some e) =>
      scanAddress text
      = (common.zeroAddress,
         Some (wrapError "failed to decode database value" e))
  end.
Proof.
  destruct (hexutil.Decode text) as [b [e|]] eqn:Hd.
  - unfold scanAddress, serializers.BytesSerializer.Scan. rewrite Hd.
    reflexivity.
  - unfold scanAddress.
    destruct (serializers_facts.Scan_named common.AddressDecl
                reflect.PointerReceiver common.SetBytes text b 0
                [reflect.zeroOf (reflect.Named common.AddressDecl)]
                eq_refl Hd) as (h' & HS & Hn); [cbn; lia|].
    rewrite HS, Hn. reflexivity.
Qed.


Lemma find_none_iff {A} (f : A -> bool) (l : list A) :
  find f l = None <-> forall x, In x l -> f x = false.
Proof.
  split; [apply find_none|].
  induction l as [|a l IH]; intros H; [reflexivity|]. cbn.
  rewrite (H a (or_introl eq_refl)). apply IH. intros x Hx. apply H. now right.
Qed.


Lemma toLower_checksum_hi (v : byte) (up : bool) k :
  let c := hex.hexdigit (N.shiftr (Byte.to_N v) 4) in
  strings.toLowerByte
    (if ((57 <? N_of_ascii c) && (7 <? k))%N then ascii_of_N (N_of_ascii c - 32) else c) = c.
Proof. destruct (7 <? k)%N; destruct v; reflexivity. Qed.

Lemma toLower_checksum_lo (v : byte) k :
  let c := hex.hexdigit (N.land (Byte.to_N v) 15) in
  strings.toLowerByte
    (if ((57 <? N_of_ascii c) && (7 <? k))%N then ascii_of_N (N_of_ascii c - 32) else c) = c.
Proof. destruct (7 <? k)%N; destruct v; reflexivity. Qed.

Lemma ToLower_checksumCase (hash : list byte) (a : list byte) : forall k,
  strings.ToLower (common.checksumCase hash k (hex.EncodeToString a))
  = hex.EncodeToString a.
Proof.
  induction a as [|v a IH]; intros k; [reflexivity|].
  cbn [hex.EncodeToString common.checksumCase strings.ToLower].
  rewrite IH. f_equal; [apply (toLower_checksum_hi v true)|].
  f_equal. apply toLower_checksum_lo.
Qed.

Lemma fromHexChar_toLower (c : ascii) (n : N) :
  hex.fromHexChar c = Some n -> (n < 16)%N /\ hex.hexdigit n = strings.toLowerByte c.
Proof.
  destruct c as [[] [] [] [] [] [] [] []]; cbn; intros [= <-]; split; reflexivity.
Qed.

Lemma mkByte_nibbles_inv (a b : N) :
  (a < 16)%N -> (b < 16)%N ->
  N.shiftr (Byte.to_N (hex.mkByte a b)) 4 = a /\ N.land (Byte.to_N (hex.mkByte a b)) 15 = b.
Proof.
  intros Ha Hb.
  assert (Ea : (a = 0 \/ a = 1 \/ a = 2 \/ a = 3 \/ a = 4 \/ a = 5 \/ a = 6 \/ a = 7 \/
               a = 8 \/ a = 9 \/ a = 10 \/ a = 11 \/ a = 12 \/ a = 13 \/ a = 14 \/ a = 15)%N) by lia.
  assert (Eb : (b = 0 \/ b = 1 \/ b = 2 \/ b = 3 \/ b = 4 \/ b = 5 \/ b = 6 \/ b = 7 \/
               b = 8 \/ b = 9 \/ b = 10 \/ b = 11 \/ b = 12 \/ b = 13 \/ b = 14 \/ b = 15)%N) by lia.
  clear Ha Hb.
  repeat (destruct Ea as [-> | Ea]); try subst a;
  repeat (destruct Eb as [-> | Eb]); try subst b; split; reflexivity.
Qed.

(** The text the address store looks an address up by is the lower-case hex
    of its bytes, whatever the checksum made upper case: it is the text
    the serializer stores. *)
Lemma lookupKey_canonical (Keccak256 : string -> list byte)
    (a : common.Address) :
  lookupKey Keccak256 a = hexutil.Encode (common.Bytes a).
Proof.
  unfold lookupKey, common.String_, common.Hex, common.checksumHex,
    hexutil.Encode, common.Bytes.
  cbn [append strings.ToLower]. rewrite ToLower_checksumCase. reflexivity.
Qed.

(** Decoding well-formed digits and encoding the bytes lowers the case. *)
Lemma Encode_DecodeString (s : string) :
  Nat.even (String.length s) && hexutil.allHex s = true ->
  hex.EncodeToString (fst (hex.DecodeString s)) = strings.ToLower s
  /\ (2 * List.length (fst (hex.DecodeString s)) = String.length s)%nat.
Proof.
  induction s as [|c|c1 c2 s IH] using serializers_facts.string_pairs_ind.
  - intros _. split; reflexivity.
  - cbn. discriminate.
  - cbn [String.length Nat.even hexutil.allHex hex.DecodeString].
    destruct (hex.fromHexChar c1) as [a|] eqn:H1;
      [|rewrite andb_false_r; discriminate].
    destruct (hex.fromHexChar c2) as [b|] eqn:H2;
      [|rewrite andb_false_r; discriminate].
    intros H. destruct (IH H) as [IH1 IH2].
    destruct (hex.DecodeString s) as [bs err]. cbn [fst] in *.
    apply fromHexChar_toLower in H1, H2.
    destruct H1 as [Ha Ea], H2 as [Hb Eb].
    destruct (mkByte_nibbles_inv a b Ha Hb) as [Hhi Hlo].
    cbn [hex.EncodeToString strings.ToLower List.length].
    rewrite Hhi, Hlo, Ea, Eb, IH1. split; [reflexivity | lia].
Qed.

Lemma BytesToAddress_full (b : list byte) :
  List.length b = common.AddressLength -> common.BytesToAddress b = b.
Proof.
  intros H. unfold common.BytesToAddress, common.SetBytes.
  rewrite H, Nat.ltb_irrefl. cbv beta iota zeta.
  rewrite H, Nat.sub_diag. reflexivity.
Qed.

Lemma ToLower_prefix (s : string) :
  hexutil.has0xPrefix s = true ->
  strings.ToLower s = "0x" ++ strings.ToLower (hexutil.drop2 s).
Proof.
  destruct s as [|c0 [|c1 s]]; try discriminate. cbn [hexutil.has0xPrefix].
  intros H. apply andb_prop in H. destruct H as [H0 H1].
  apply Ascii.eqb_eq in H0. subst c0.
  apply orb_prop in H1. destruct H1 as [H1 | H1];
    apply Ascii.eqb_eq in H1; subst c1; reflexivity.
Qed.


Lemma In_insertByKey (r x : gorm.Row) (l : list gorm.Row) :
  In x (gorm.insertByKey r l) <-> x = r \/ In x l.
Proof.
  induction l as [|a l IH]; cbn.
  - intuition.
  - destruct (String.leb (gorm.guid r) (gorm.guid a)); cbn; [intuition|].
    rewrite IH. intuition.
Qed.

Lemma In_orderByKey (x : gorm.Row) (l : list gorm.Row) :
  In x (gorm.orderByKey l) <-> In x l.
Proof.
  induction l as [|a l IH]; cbn; [tauto|].
  rewrite In_insertByKey, IH. intuition.
Qed.

(** The row a text key finds scans without error: its text is the key. *)
Lemma scanRow_of_key (r : gorm.Row) (a : common.Address) :
  gorm.address r = hexutil.Encode a ->
  scanRow r
  = (mkAddresses (gorm.guid r) (common.BytesToAddress a)
       (gorm.address_type r) (gorm.public_key r) (gorm.timestamp r), None).
Proof.
  intros H. unfold scanRow. pose proof (scanAddress_spec (gorm.address r)) as S.
  rewrite H in *. rewrite serializers_facts.Decode_Encode in S. now rewrite S.
Qed.

(* --------------------------------------------------------------------- *)
(** ** The address store *)









End database_facts.

Module migration_facts.
Import filepath database.

Lemma Node_nested_ind (P : Node -> Prop) :
  (forall c, P (RegularFile c)) ->
  (forall e, P (Unreadable e)) ->
  (forall entries, Forall (fun ne => P (snd ne)) entries -> P (Directory entries)) ->
  (forall e, P (UnlistableDir e)) ->
  (forall e, P (LstatFails e)) ->
  forall n, P n.
Proof.
  intros Hf Hu Hd Hl Hs. fix IH 1. intros [c|e|entries|e|e].
  - apply Hf.
  - apply Hu.
  - apply Hd. induction entries as [|[name child] rest IHrest].
    + constructor.
    + constructor; [exact (IH child) | exact IHrest].
  - apply Hl.
  - apply Hs.
Qed.

Section M.
Variable Exec : list string -> string -> option error.
Variable root : Path.

Lemma migrateFile_not_sentinel path info err m name :
  isSentinel (fst (migrateFile Exec root path info err m)) name = false.
Proof.
  unfold migrateFile.
  destruct err as [e|]; [reflexivity|].
  destruct info as [info|]; [|reflexivity].
  destruct (IsDir info); [reflexivity|].
  destruct (Rel root path) as [rel err].
  destruct (negb (isNil err) || strings.Contains rel ".."); [reflexivity|].
  destruct (os.ReadFile info) as [content [readErr|]]; [reflexivity|].
  destruct (Exec _ content); reflexivity.
Qed.

Lemma walk_not_sentinel found : forall path m name,
  isSentinel (fst (walk (migrateFile Exec root) path found m)) name = false.
Proof.
  induction found as [c|e|entries IH|e|e] using Node_nested_ind;
    intros path m name; try apply migrateFile_not_sentinel.
  cbn [walk].
  destruct (migrateFile Exec root path (Some (Directory entries)) None m)
    as [err1 m1] eqn:E1.
  pose proof (migrateFile_not_sentinel path (Some (Directory entries)) None m name) as N1.
  rewrite E1 in N1. cbn [fst] in N1.
  destruct (negb (isNil err1)); [exact N1|].
  clear E1 N1. revert m1.
  induction IH as [|[nm child] rest Hc Hrest IHrest]; intros m1; [reflexivity|].
  cbn [snd] in Hc.
  destruct child as [c|e|es|e|e].
  all: try (
    match goal with
    | |- context [walk ?f ?p ?c ?s] =>
        pose proof (Hc p s name) as N; pose proof (Hc p s "filepath.SkipDir") as N';
        destruct (walk f p c s) as [err s'] eqn:Ew
    end;
    cbn [fst] in N, N'; rewrite N';
    destruct (isNil err); cbn [negb andb orb];
    [apply IHrest | try exact N; rewrite ?orb_true_r; exact N]).
  (* LstatFails *)
  pose proof (migrateFile_not_sentinel (Join path nm) None (Some e) m1 name) as N.
  pose proof (migrateFile_not_sentinel (Join path nm) None (Some e) m1 "filepath.SkipDir") as N'.
  destruct (migrateFile Exec root (Join path nm) None (Some e) m1) as [err s'].
  cbn [fst] in N, N'. rewrite N'.
  destruct (isNil err); cbn [negb andb]; [apply IHrest | exact N].
Qed.

Lemma migrateAll_file path found rest m :
  IsDir found = false -> isLstatFails found = false ->
  migrateAll Exec root ((path, found) :: rest) m
  = let (err, m') := migrateFile Exec root path (Some found) None m in
    match err with
    | Some _ => (err, m')
    | None => migrateAll Exec root rest m'
    end.
Proof.
  intros Hd Hl. unfold migrateFile. rewrite Hd.
  destruct found as [c|e|es|e|e]; try discriminate;
    cbn [migrateAll]; unfold rejected;
    destruct (Rel root path) as [rel err];
    destruct (negb (isNil err) || strings.Contains rel ".."); try reflexivity;
    cbn [os.ReadFile]; try reflexivity.
  destruct (Exec _ c); reflexivity.
Qed.

Lemma walk_migrateAll found : forall path m rest,
  isLstatFails found = false ->
  migrateAll Exec root (visits path found ++ rest) m
  = let (err, m') := walk (migrateFile Exec root) path found m in
    match err with
    | Some _ => (err, m')
    | None => migrateAll Exec root rest m'
    end.
Proof.
  induction found as [c|e|entries IH|e|e] using Node_nested_ind;
    intros path m rest Hl; try discriminate.
  - cbn [visits app walk]. now apply migrateAll_file.
  - cbn [visits app walk]. now apply migrateAll_file.
  - cbn [visits app walk migrateAll].
    unfold migrateFile at 1. cbn [IsDir isNil negb].
    clear Hl. revert m.
    induction IH as [|[nm child] others Hc Hothers IHothers]; intros m.
    + cbn [app]. destruct (migrateAll Exec root rest m) as [[e|] m']; reflexivity.
    + cbn [snd] in Hc. rewrite <- app_assoc.
      assert (Hstep : isLstatFails child = false ->
                forall k : Migration -> option error * Migration,
                (forall m', migrateAll Exec root
                   ((fix below (es : list (string * Node)) : list (Path * Node) :=
                       match es with
                       | [] => []
                       | (name, child) :: rest0 =>
                           (visits (Join path name) child ++ below rest0)%list
                       end) others ++ rest) m'
                   = (let (err, m'') := k m' in
                      match err with
                      | Some _ => (err, m'')
                      | None => migrateAll Exec root rest m''
                      end)) ->
                migrateAll Exec root
                  (visits (Join path nm) child ++
                   (fix below (es : list (string * Node)) : list (Path * Node) :=
                       match es with
                       | [] => []
                       | (name, child) :: rest0 =>
                           (visits (Join path name) child ++ below rest0)%list
                       end) others ++ rest) m
                = (let (err, m') :=
                     (let (err, s') := walk (migrateFile Exec root) (Join path nm) child m in
                      if negb (isNil err)
                         && (negb (IsDir child)
                             || negb (isSentinel err "filepath.SkipDir"))
                      then (err, s') else k s') in
                   match err with
                   | Some _ => (err, m')
                   | None => migrateAll Exec root rest m'
                   end)).
      { intros Hnl k Hk. rewrite Hc by exact Hnl.
        pose proof (walk_not_sentinel child (Join path nm) m "filepath.SkipDir") as N.
        destruct (walk (migrateFile Exec root) (Join path nm) child m) as [err s'].
        cbn [fst] in N. rewrite N.
        destruct err; cbn [isNil negb andb orb].
        - rewrite orb_true_r. reflexivity.
        - apply Hk. }
      destruct child as [c|e|es|e|e];
        try (apply Hstep; [reflexivity | exact IHothers]).
      cbn [visits app migrateAll]. reflexivity.
  - cbn [visits app walk migrateAll]. reflexivity.
Qed.

Lemma ExecuteSQLMigration_walk fs m :
  ExecuteSQLMigration Exec root fs m = migrateAll Exec root (visits root fs) m.
Proof.
  unfold ExecuteSQLMigration, Walk.
  destruct (isLstatFails fs) eqn:Hl.
  - destruct fs; try discriminate. reflexivity.
  - rewrite <- (app_nil_r (visits root fs)).
    rewrite (walk_migrateAll fs root m [] Hl).
    pose proof (walk_not_sentinel fs root m "filepath.SkipDir") as N1.
    pose proof (walk_not_sentinel fs root m "filepath.SkipAll") as N2.
    replace (match fs with
             | LstatFails e => migrateFile Exec root root None (Some e) m
             | _ => walk (migrateFile Exec root) root fs m
             end) with (walk (migrateFile Exec root) root fs m)
      by (destruct fs; try reflexivity; discriminate).
    destruct (walk (migrateFile Exec root) root fs m) as [err m'].
    cbn [fst] in N1, N2. rewrite N1, N2. destruct err; reflexivity.
Qed.







End M.

(* --------------------------------------------------------------------- *)
(** ** The migrations *)




End migration_facts.

Module connection_facts.
Import retry retry_facts database.

(** Before a context that is never cancelled, [Do] is decided by the first
    of the [maxAttempts] invocations that succeeds, if any. *)
Lemma Do_live {T : Type} (empty : T) (n : Z) (strategy : Strategy)
    (op : Op T) :
  1 <= n ->
  Do empty Background n strategy op fresh
  = match firstSuccess op 0 (Z.to_nat n) with
    | Some k =>
        (Some (fst (op k), None),
         mkWorld (S k) (S k) (map strategy (attempts 0 k)))
    | None =>
        (Some (empty,
               Some (ErrFailedPermanently n (snd (op (Z.to_nat n - 1)%nat)))),
         mkWorld (Z.to_nat n) (Z.to_nat n)
           (map strategy (attempts 0 (Z.to_nat n - 1))))
    end.
Proof.
  intros Hn. destruct (firstSuccess op 0 (Z.to_nat n)) as [k|] eqn:Hfs.
  - apply firstSuccess_Some in Hfs. destruct Hfs as (Hk & Hs & Hf).
    apply Do_success_after.
    + lia.
    + intros p _. reflexivity.
    + intros j Hj. apply Hf. lia.
    + rewrite (surjective_pairing (op k)), Hs. reflexivity.
  - apply Do_exhausted.
    + exact Hn.
    + intros p _. reflexivity.
    + intros j Hj. apply (firstSuccess_None op _ 0%nat Hfs). lia.
Qed.

Section NewDB.
Variable gorm_Open : string -> nat -> option gorm.DB * option error.
Variable jitter : Z -> Z.

(** The operation of [NewDB] fails exactly when [gorm.Open] does. *)
Lemma openOp_fails (dsn : string) (j : nat) :
  snd (openOp gorm_Open dsn j)
  = option_map (wrapError "failed to connect to database")
      (snd (gorm_Open dsn j)).
Proof.
  unfold openOp. destruct (gorm_Open dsn j) as [g [e|]]; reflexivity.
Qed.

(** C10: [NewDB] gives [retry.Do] a background context, not the context of
    its caller: its run is the same whatever the caller's context, one
    cancelled before the call included.  The retry loop goes through its
    attempts: the connection is opened at least once, and [NewDB] returns
    the database of the first of ten attempts that succeeds, or, after ten
    failed attempts and nine sleeps, the "failed permanently" error that
    wraps the last failure; the error it returns is never a context's
    cancellation error. *)
Theorem NewDB_ignores_context (ctx ctx' : Context) (dbConfig : DBConfig) :
  NewDB gorm_Open jitter ctx dbConfig = NewDB gorm_Open jitter ctx' dbConfig
  /\ NewDB gorm_Open jitter examples.cancelled dbConfig fresh
     = NewDB gorm_Open jitter Background dbConfig fresh
  /\ exists r w,
       NewDB gorm_Open jitter ctx dbConfig fresh = (Some r, w)
       /\ (1 <= opCalls w <= 10)%nat
       /\ (forall name msg, snd r <> Some (Sentinel name msg))
       /\ match firstSuccess (openOp gorm_Open (dsnOf dbConfig)) 0 10 with
          | Some k =>
              r = (Some (mkDB (fst (gorm_Open (dsnOf dbConfig) k))), None)
              /\ snd (gorm_Open (dsnOf dbConfig) k) = None
              /\ opCalls w = S k /\ List.length (slept w) = k
          | None =>
              exists e,
                snd (gorm_Open (dsnOf dbConfig) 9) = Some e
                /\ r = (None,
                        Some (ErrFailedPermanently 10
                                (Some (wrapError
                                         "failed to connect to database" e))))
                /\ opCalls w = 10%nat /\ List.length (slept w) = 9%nat
          end.
Proof.
  split; [reflexivity|]. split; [reflexivity|].
  unfold NewDB, bind, ret.
  rewrite Do_live by lia.
  change (Z.to_nat 10) with 10%nat.
  destruct (firstSuccess (openOp gorm_Open (dsnOf dbConfig)) 0 10)
    as [k|] eqn:Hfs.
  - apply firstSuccess_Some in Hfs. destruct Hfs as (Hk & Hs & _).
    rewrite openOp_fails in Hs.
    destruct (snd (gorm_Open (dsnOf dbConfig) k)) as [e|] eqn:He;
      [discriminate|].
    assert (Hop : fst (openOp gorm_Open (dsnOf dbConfig) k)
                  = fst (gorm_Open (dsnOf dbConfig) k)).
    { unfold openOp. destruct (gorm_Open (dsnOf dbConfig) k) as [g [e|]];
        [discriminate | reflexivity]. }
    eexists. eexists. split; [reflexivity|]. cbn [opCalls slept snd].
    split; [lia|]. split; [discriminate|].
    rewrite Hop, length_map, length_attempts. repeat split.
  - pose proof (firstSuccess_None _ _ _ Hfs 9%nat ltac:(lia)) as H9.
    rewrite openOp_fails in H9.
    destruct (snd (gorm_Open (dsnOf dbConfig) 9)) as [e|] eqn:He;
      [|contradiction].
    change (10 - 1)%nat with 9%nat.
    rewrite openOp_fails, He. cbn [option_map].
    eexists. eexists. split; [reflexivity|]. cbn [opCalls slept snd].
    split; [lia|]. split; [discriminate|].
    exists e. repeat split.
Qed.

End NewDB.

Section ErrorChain.
Variable gorm_Open : string -> nat -> option gorm.DB * option error.
Variable jitter : Z -> Z.

(** X4: when all ten attempts to open the connection fail, the error of
    [NewDB] lets the error of the tenth [gorm.Open] through both of its
    wrappers: [errors.Is] finds in it exactly the sentinels it finds in
    that error, and its message is that of the error behind the count of
    attempts and the words of [NewDB]. *)
Theorem NewDB_error_chain (ctx : Context) (dbConfig : DBConfig) :
  (forall j, (j < 10)%nat -> snd (gorm_Open (dsnOf dbConfig) j) <> None) ->
  exists cause err w,
    snd (gorm_Open (dsnOf dbConfig) 9) = Some cause
    /\ NewDB gorm_Open jitter ctx dbConfig fresh = (Some (None, Some err), w)
    /\ (forall name, errors.Is err name = errors.Is cause name)
    /\ errors.Error err
       = "operation failed permanently after 10 attempts: "
           ++ "failed to connect to database: " ++ errors.Error cause.
Proof.
  intros Hf.
  destruct (snd (gorm_Open (dsnOf dbConfig) 9)) as [cause|] eqn:Hc.
  2:{ exfalso. apply (Hf 9%nat); [lia | exact Hc]. }
  exists cause. unfold NewDB, bind, ret.
  rewrite (Do_exhausted None Background 10
             (ExponentialStrategy 1000 20000 250 jitter)
             (openOp gorm_Open (dsnOf dbConfig))).
  - change (Z.to_nat 10 - 1)%nat with 9%nat.
    rewrite openOp_fails, Hc. cbn [option_map].
    eexists. eexists. split; [reflexivity|]. split; [reflexivity|].
    split; [intros name; reflexivity | reflexivity].
  - lia.
  - intros p _. reflexivity.
  - intros j Hj. rewrite openOp_fails.
    destruct (snd (gorm_Open (dsnOf dbConfig) j)) eqn:E; [discriminate|].
    exfalso. apply (Hf j); [lia | exact E].
Qed.

End ErrorChain.

Lemma NewDB_error_chain_witness :
  exists cause err w,
    snd (examples.openFails (dsnOf examples.localConfig) 9) = Some cause
    /\ NewDB examples.openFails examples.noJitter examples.cancelled
         examples.localConfig fresh = (Some (None, Some err), w)
    /\ (forall name, errors.Is err name = errors.Is cause name)
    /\ errors.Error err
       = "operation failed permanently after 10 attempts: "
           ++ "failed to connect to database: " ++ errors.Error cause.
Proof.
  apply (NewDB_error_chain examples.openFails examples.noJitter
           examples.cancelled examples.localConfig).
  intros j _. cbn. discriminate.
Defined.

End connection_facts.

Module retry_more.
Import retry retry_facts examples.

Lemma attempts_snoc (m : nat) : forall a : Z,
  attempts a (S m) = (attempts a m ++ [a + Z.of_nat m])%list.
Proof.
  induction m as [|m IH]; intros a.
  - cbn. now rewrite Z.add_0_r.
  - change (attempts a (S (S m))) with (a :: attempts (a + 1) (S m)).
    rewrite IH. cbn [attempts app]. do 3 f_equal. lia.
Qed.

Section Outcomes.
Context {T : Type}.
Variable empty : T.
Variable ctx : Context.
Variable n : nat.
Variable strategy : Strategy.
Variable op : Op T.
Hypothesis n_positive : (1 <= n)%nat.

(** The world and the last error at the head of the loop, [i] attempts
    having failed. *)
Let headWorld (i : nat) : World :=
  mkWorld i i (map strategy (attempts 0 (Nat.min i (n - 1)))).
Let headErr (i : nat) : option error :=
  match i with O => None | S i' => snd (op i') end.

Lemma Do_loop_outcome (fuel : nat) : forall i : nat,
  (i + fuel = n)%nat ->
  (forall j, (j < i)%nat -> ctx j = None /\ snd (op j) <> None) ->
  exists r w,
    Do_loop empty ctx (Z.of_nat n) strategy op fuel (Z.of_nat i)
      (headErr i) (headWorld i) = (Some r, w)
    /\ (endsInSuccess ctx n strategy op r w
        \/ endsInCancellation empty ctx n strategy op r w
        \/ endsInExhaustion empty ctx n strategy op r w).
Proof.
  induction fuel as [|fuel IH]; intros i Hi Hpre.
  - assert (i = n) by lia. subst i. cbn [Do_loop].
    rewrite Z.ltb_irrefl. unfold ret.
    eexists. eexists. split; [reflexivity|]. right. right.
    split; [exact Hpre|]. unfold headErr, headWorld.
    destruct n as [|n']; [lia|].
    replace (S n' - 1)%nat with n' by lia.
    rewrite Nat.min_r by lia. split; reflexivity.
  - assert (Hlt : (i < n)%nat) by lia.
    cbn [Do_loop].
    replace (Z.of_nat i <? Z.of_nat n) with true
      by (symmetry; apply Z.ltb_lt; lia).
    assert (Hw : headWorld i = mkWorld i i (map strategy (attempts 0 i))).
    { unfold headWorld. now replace (Nat.min i (n - 1)) with i by lia. }
    rewrite Hw.
    unfold bind at 1, ctx_Err. cbn [opCalls ctxPolls slept].
    destruct (ctx i) as [e|] eqn:Hc.
    + unfold bind, ret. cbn [opCalls ctxPolls slept].
      eexists. eexists. split; [reflexivity|]. right. left.
      exists i. split; [exact Hlt|]. split; [exact Hpre|].
      split; [congruence|]. split; reflexivity.
    + unfold bind at 1, invoke. cbn [opCalls ctxPolls slept].
      destruct (snd (op i)) as [e|] eqn:Ho.
      * assert (Hpre' : forall j, (j < S i)%nat ->
                          ctx j = None /\ snd (op j) <> None).
        { intros j Hj. destruct (Nat.eq_dec j i) as [->|Hne].
          - split; [exact Hc | congruence].
          - apply Hpre. lia. }
        destruct (IH (S i) ltac:(lia) Hpre') as (r & w & Hrun & Hout).
        exists r, w. split; [|exact Hout]. rewrite <- Hrun.
        unfold bind at 1.
        replace (Z.of_nat i + 1) with (Z.of_nat (S i)) by lia.
        assert (He : headErr (S i) = Some e) by exact Ho.
        rewrite He.
        destruct (Z.eqb_spec (Z.of_nat i) (Z.of_nat n - 1)) as [Heq|Hne];
          cbn [negb]; unfold time_Sleep, ret; cbn [opCalls ctxPolls slept];
          f_equal; unfold headWorld; f_equal.
        -- replace (Nat.min (S i) (n - 1)) with i by lia. reflexivity.
        -- replace (Nat.min (S i) (n - 1)) with (S i) by lia.
           rewrite attempts_snoc, map_app. reflexivity.
      * unfold ret. eexists. eexists. split; [reflexivity|]. left.
        exists i. split; [exact Hlt|]. split; [exact Hpre|].
        split; [exact Hc|]. split; [exact Ho|]. split; reflexivity.
Qed.

End Outcomes.

(** X1: whatever the context and the operation do, a run of [Do] with
    [maxAttempts >= 1] returns, and ends in one of three ways: an attempt
    succeeds after only failures, and its value is returned with a nil
    error; the context is found cancelled at an attempt boundary after
    only failures, and the zero value is returned with what [ctx.Err()]
    then answers; or all the attempts fail, and the zero value is returned
    with the "failed permanently" error that holds the last error.  In
    each case the invocations, the polls of the context and the sleeps
    are counted. *)
Theorem Do_outcomes {T : Type} (empty : T) (ctx : Context) (n : Z)
    (strategy : Strategy) (op : Op T) :
  1 <= n ->
  exists r w,
    Do empty ctx n strategy op fresh = (Some r, w)
    /\ (endsInSuccess ctx (Z.to_nat n) strategy op r w
        \/ endsInCancellation empty ctx (Z.to_nat n) strategy op r w
        \/ endsInExhaustion empty ctx (Z.to_nat n) strategy op r w).
Proof.
  intros Hn. unfold Do.
  replace (n <? 1) with false by (symmetry; apply Z.ltb_ge; lia).
  pose proof (Do_loop_outcome empty ctx (Z.to_nat n) strategy op
                ltac:(lia) (Z.to_nat n) 0%nat ltac:(lia)) as H.
  rewrite Z2Nat.id in H by lia. cbn [Z.of_nat] in H.
  replace (Nat.min 0 (Z.to_nat n - 1)) with 0%nat in H by lia.
  apply H. intros j Hj. lia.
Qed.

Lemma Do_outcomes_witness :
  exists r w,
    Do 0 cancelled 5 linear twoFailures fresh = (Some r, w)
    /\ (endsInSuccess cancelled (Z.to_nat 5) linear twoFailures r w
        \/ endsInCancellation 0 cancelled (Z.to_nat 5) linear twoFailures r w
        \/ endsInExhaustion 0 cancelled (Z.to_nat 5) linear twoFailures r w).
Proof.
  apply (Do_outcomes 0 cancelled 5 linear twoFailures). lia.
Defined.

(** X2: for every [maxAttempts], context, strategy and operation, [Do]
    returns, having invoked the operation at most [maxAttempts] times,
    slept at most [maxAttempts - 1] times and never more often than it
    invoked the operation, and polled the context at most
    [maxAttempts + 1] times; whenever it returns an error, the value it
    returns is the zero value, whatever the operation returned beside its
    own error. *)
Theorem Do_bounds {T : Type} (empty : T) (ctx : Context) (n : Z)
    (strategy : Strategy) (op : Op T) :
  exists r w,
    Do empty ctx n strategy op fresh = (Some r, w)
    /\ Z.of_nat (opCalls w) <= Z.max 0 n
    /\ Z.of_nat (List.length (slept w)) <= Z.max 0 (n - 1)
    /\ (List.length (slept w) <= opCalls w)%nat
    /\ Z.of_nat (ctxPolls w) <= Z.max 0 (n + 1)
    /\ (snd r <> None -> fst r = empty).
Proof.
  destruct (Z.ltb_spec n 1) as [Hn|Hn].
  - unfold Do. replace (n <? 1) with true by (symmetry; apply Z.ltb_lt; lia).
    unfold ret. eexists. eexists. split; [reflexivity|].
    cbn [fresh opCalls ctxPolls slept List.length Z.of_nat fst snd].
    repeat split; try lia.
  - assert (Hends : exists r w,
              Do empty ctx n strategy op fresh = (Some r, w)
              /\ (endsInSuccess ctx (Z.to_nat n) strategy op r w
                  \/ endsInCancellation empty ctx (Z.to_nat n) strategy op r w
                  \/ endsInExhaustion empty ctx (Z.to_nat n) strategy op r w)).
    { unfold Do.
      replace (n <? 1) with false by (symmetry; apply Z.ltb_ge; lia).
      pose proof (Do_loop_outcome empty ctx (Z.to_nat n) strategy op
                    ltac:(lia) (Z.to_nat n) 0%nat ltac:(lia)) as H.
      rewrite Z2Nat.id in H by lia. cbn [Z.of_nat] in H.
      replace (Nat.min 0 (Z.to_nat n - 1)) with 0%nat in H by lia.
      apply H. intros j Hj. lia. }
    destruct Hends as (r & w & Hrun & [Hs | [Hc | He]]).
    + destruct Hs as (i & Hi & _ & _ & _ & -> & ->).
      exists (fst (op i), None). eexists. split; [exact Hrun|].
      cbn [opCalls ctxPolls slept fst snd].
      rewrite length_map, length_attempts.
      repeat split; try lia. intros H. now contradiction H.
    + destruct Hc as (i & Hi & _ & _ & -> & ->).
      eexists. eexists. split; [exact Hrun|].
      cbn [opCalls ctxPolls slept fst snd].
      rewrite length_map, length_attempts.
      repeat split; try lia.
    + destruct He as (_ & -> & ->).
      eexists. eexists. split; [exact Hrun|].
      cbn [opCalls ctxPolls slept fst snd].
      rewrite length_map, length_attempts.
      repeat split; try lia.
Qed.

(** X3: [Do2] returns both results of the first invocation that succeeds:
    for an operation that fails on its first [k < maxAttempts] invocations
    and then returns [a] and [b], and a context live at the first [k+1]
    attempt boundaries, [Do2] returns [a], [b] and a nil error after
    [k+1] invocations and [k] sleeps; when all the attempts fail before a
    live context, it returns the zero values of both types with the
    "failed permanently" error. *)
Theorem Do2_returns_both_values {T U : Type} (emptyT : T) (emptyU : U)
    (ctx : Context) (n : Z) (strategy : Strategy)
    (op : nat -> T * U * option error) :
  (forall (k : nat) (a : T) (b : U),
      Z.of_nat k < n ->
      (forall p, (p <= k)%nat -> ctx p = None) ->
      (forall j, (j < k)%nat -> snd (op j) <> None) ->
      op k = (a, b, None) ->
      Do2 emptyT emptyU ctx n strategy op fresh
      = (Some (a, b, None),
         mkWorld (S k) (S k) (map strategy (attempts 0 k))))
  /\ (1 <= n ->
      (forall p, Z.of_nat p < n -> ctx p = None) ->
      (forall j, Z.of_nat j < n -> snd (op j) <> None) ->
      Do2 emptyT emptyU ctx n strategy op fresh
      = (Some (emptyT, emptyU,
               Some (ErrFailedPermanently n
                       (snd (op (Z.to_nat n - 1)%nat)))),
         mkWorld (Z.to_nat n) (Z.to_nat n)
           (map strategy (attempts 0 (Z.to_nat n - 1))))).
Proof.
  set (f := fun j : nat => let '(a, b, err) := op j in ((a, b), err)).
  assert (Hsnd : forall j, snd (f j) = snd (op j)).
  { intros j. unfold f. destruct (op j) as [[a b] err]. reflexivity. }
  split.
  - intros k a b Hk Hc Hf Hs. unfold Do2, bind. fold f.
    rewrite (Do_success_after (emptyT, emptyU) ctx n strategy f k (a, b)).
    + reflexivity.
    + exact Hk.
    + exact Hc.
    + intros j Hj. rewrite Hsnd. now apply Hf.
    + unfold f. now rewrite Hs.
  - intros Hn Hc Hf. unfold Do2, bind. fold f.
    rewrite (Do_exhausted (emptyT, emptyU) ctx n strategy f Hn Hc).
    + rewrite Hsnd. reflexivity.
    + intros j Hj. rewrite Hsnd. now apply Hf.
Qed.

Lemma Do2_returns_both_values_witness :
  Do2 0 false Background 5 linear twoFailures2 fresh
  = (Some (42, true, None),
     mkWorld 3 3 (map linear (attempts 0 2))).
Proof.
  apply (proj1 (Do2_returns_both_values 0 false Background 5 linear
                  twoFailures2) 2%nat 42 true).
  - cbn. lia.
  - intros p _. reflexivity.
  - intros j Hj. destruct j as [|[|j]]; cbn; [discriminate|discriminate|lia].
  - reflexivity.
Defined.

End retry_more.

Module serializers_more.
Import reflect serializers serializers_facts.

Section WithRaw.
Context {Raw : Type}.
Implicit Types (h : Heap Raw).

Lemma nth_error_grown h (extra : Heap Raw) l :
  (l < List.length h)%nat -> nth_error (h ++ extra) l = nth_error h l.
Proof. intros H. now apply nth_error_app1. Qed.

Lemma store_keeps h (extra : Heap Raw) dst v :
  (dst < List.length h)%nat ->
  exists h', store dst v (h ++ extra)%list = Some (tt, h')
    /\ nth_error h' dst = Some v
    /\ forall l, (l < List.length h)%nat -> l <> dst -> nth_error h' l = nth_error h l.
Proof.
  intros Hd.
  destruct (store_lt (h ++ extra)%list dst v) as (h' & Hs & Hn & _ & Ho).
  { rewrite length_app. lia. }
  exists h'. split; [exact Hs|]. split; [exact Hn|].
  intros l Hl Hne. rewrite Ho by exact Hne. now apply nth_error_grown.
Qed.

(** X5: given a destination that exists, [Scan] never panics, whatever
    the field type and the stored value; it changes no cell of the heap
    that existed before other than the destination; and when it returns an
    error, the destination holds what it held. *)
Theorem Scan_failure_atomic (ft : GoType Raw) dst dbValue h :
  (dst < List.length h)%nat ->
  exists r h',
    BytesSerializer.Scan ft dst dbValue h = Some (r, h')
    /\ (forall l, (l < List.length h)%nat -> l <> dst ->
                  nth_error h' l = nth_error h l)
    /\ (r <> None -> nth_error h' dst = nth_error h dst).
Proof.
  intros Hd. unfold BytesSerializer.Scan.
  destruct dbValue as [[n|n|b|b|s|n]|];
    try (eexists; eexists; split; [reflexivity|]; split; [reflexivity|];
         intros; reflexivity).
  destruct (hexutil.Decode s) as [b [err|]].
  { eexists. eexists. split; [reflexivity|]. split; intros; reflexivity. }
  destruct ft as [d|[d|elem]].
  - heap_simp. destruct (mSetBytes d) as [[recv f]|] eqn:Hm.
    + heap_simp. destruct recv.
      * rewrite !load_last.
        destruct (store_keeps h [Val d (tzero d)] dst (Val d (tzero d)) Hd)
          as (h' & Hs & Hn & Ho).
        rewrite Hs. exists None, h'. split; [reflexivity|].
        split; [exact Ho|]. intros H. now contradiction H.
      * rewrite load_last, store_last, load_last.
        destruct (store_keeps h [Val d (f (tzero d) b)] dst (Val d (f (tzero d) b)) Hd)
          as (h' & Hs & Hn & Ho).
        rewrite Hs. exists None, h'. split; [reflexivity|].
        split; [exact Ho|]. intros H. now contradiction H.
    + eexists. eexists. split; [reflexivity|].
      split; intros; now apply nth_error_grown.
  - heap_simp. rewrite load_last. heap_simp.
    rewrite store_at0, load_at0. heap_simp.
    set (l2 := List.length (h ++ [Ptr (Named d) None])%list).
    destruct (mSetBytes d) as [[recv f]|] eqn:Hm.
    + heap_simp.
      rewrite (load_end (h ++ [Ptr (Named d) (Some l2)])%list)
        by (unfold l2; rewrite !length_app; reflexivity).
      destruct recv.
      * rewrite load_at0. rewrite <- app_assoc.
        destruct (store_keeps h ([Ptr (Named d) (Some l2)] ++ [Val d (tzero d)])%list
                    dst (Ptr (Named d) (Some l2)) Hd) as (h' & Hs & Hn & Ho).
        rewrite Hs. exists None, h'. split; [reflexivity|].
        split; [exact Ho|]. intros H. now contradiction H.
      * rewrite (store_end (h ++ [Ptr (Named d) (Some l2)])%list)
          by (unfold l2; rewrite !length_app; reflexivity).
        rewrite load_at0. rewrite <- app_assoc.
        destruct (store_keeps h ([Ptr (Named d) (Some l2)] ++ [Val d (f (tzero d) b)])%list
                    dst (Ptr (Named d) (Some l2)) Hd) as (h' & Hs & Hn & Ho).
        rewrite Hs. exists None, h'. split; [reflexivity|].
        split; [exact Ho|]. intros H. now contradiction H.
    + eexists. eexists. split; [reflexivity|].
      rewrite <- app_assoc. split; intros; now apply nth_error_grown.
  - heap_simp. rewrite load_last. heap_simp.
    rewrite store_at0, load_at0. heap_simp.
    eexists. eexists. split; [reflexivity|].
    rewrite <- app_assoc. split; intros; now apply nth_error_grown.
Qed.

Lemma Encode_wellFormed (b : list byte) :
  hexutil.wellFormed (hexutil.Encode b) = true.
Proof.
  apply Decode_ok_iff. now rewrite Decode_Encode.
Qed.

(** X6: [Value] only reads: whenever it returns, the heap is what it was,
    and what it returns is a nil storage value with a nil error, or the
    missing-capability error, or a text that is well-formed prefixed hex,
    one [Scan] decodes without error. *)
Theorem Value_read_only (ft : GoType Raw) (fieldValue : option (GoValue Raw))
    h r h' :
  BytesSerializer.Value ft fieldValue h = Some (r, h') ->
  h' = h
  /\ (r = (None, None)
      \/ r = (None, Some errNoBytes)
      \/ exists b, r = (Some (hexutil.Encode b), None)
                   /\ hexutil.wellFormed (hexutil.Encode b) = true).
Proof.
  unfold BytesSerializer.Value.
  destruct fieldValue as [fv|].
  2:{ intros [= <- <-]. split; [reflexivity | now left]. }
  heap_simp.
  destruct ft as [d|elem]; destruct fv as [d' x|elem' [l|]];
    cbn beta iota; try discriminate.
  - destruct (mBytes d') as [[[] g]|]; intros [= <- <-];
      (split; [reflexivity|]); [|now right; left..].
    right. right. eexists. split; [reflexivity | apply Encode_wellFormed].
  - destruct elem' as [d'|e2].
    + destruct (mBytes d') as [[recv g]|].
      * unfold load. destruct (nth_error h l) as [[d2 x|? ?]|];
          try discriminate.
        intros [= <- <-]. split; [reflexivity|]. right. right.
        eexists. split; [reflexivity | apply Encode_wellFormed].
      * intros [= <- <-]. split; [reflexivity | now right; left].
    + intros [= <- <-]. split; [reflexivity | now right; left].
  - destruct elem' as [d'|e2].
    + destruct (mBytes d') as [[recv g]|]; [discriminate|].
      intros [= <- <-]. split; [reflexivity | now right; left].
    + intros [= <- <-]. split; [reflexivity | now right; left].
  - destruct elem' as [d'|e2].
    + destruct (mBytes d') as [[recv g]|].
      * unfold load. destruct (nth_error h l) as [[d2 x|? ?]|];
          try discriminate.
        intros [= <- <-]. split; [reflexivity|]. right. right.
        eexists. split; [reflexivity | apply Encode_wellFormed].
      * intros [= <- <-]. split; [reflexivity | now right; left].
    + intros [= <- <-]. split; [reflexivity | now right; left].
  - intros [= <- <-]. split; [reflexivity | now left].
Qed.

(** X7: for a type whose [Bytes] and [SetBytes] both have a pointer
    receiver, a field of the type itself can be read from the database but
    not written to it: [Scan] into it succeeds, while [Value] of it fails
    with the missing-capability error; a field of the pointer type is both
    read and written. *)
Theorem Value_needs_value_receiver (d : TypeDecl Raw) g f :
  mBytes d = Some (PointerReceiver, g) ->
  mSetBytes d = Some (PointerReceiver, f) ->
  (forall r h,
      BytesSerializer.Value (Named d) (Some (Val d r)) h
      = Some ((None, Some errNoBytes), h))
  /\ (forall s b dst h,
        hexutil.Decode s = (b, None) ->
        (dst < List.length h)%nat ->
        exists h',
          BytesSerializer.Scan (Named d) dst (Some (DBString s)) h
          = Some (None, h')
          /\ nth_error h' dst = Some (Val d (f (tzero d) b)))
  /\ (forall r l h,
        nth_error h l = Some (Val d r) ->
        BytesSerializer.Value (PointerTo (Named d))
          (Some (Ptr (Named d) (Some l))) h
        = Some ((Some (hexutil.Encode (g r)), None), h)).
Proof.
  intros Hb Hs. split; [|split].
  - intros r h. unfold BytesSerializer.Value. heap_simp. now rewrite Hb.
  - intros s b dst h Hd Hl.
    apply (Scan_named d PointerReceiver f s b dst h Hs Hd Hl).
  - intros r l h Hl. apply (Value_pointer d d PointerReceiver g l r h Hb Hl).
Qed.

End WithRaw.

Lemma Scan_failure_atomic_witness :
  exists r h',
    BytesSerializer.Scan examples.tAddressPtrPtr 0 (Some (DBString "0x00"))
      (examples.heapOf examples.tAddressPtrPtr) = Some (r, h')
    /\ (forall l,
          (l < List.length (examples.heapOf examples.tAddressPtrPtr))%nat ->
          l <> 0%nat ->
          nth_error h' l
          = nth_error (examples.heapOf examples.tAddressPtrPtr) l)
    /\ (r <> None ->
        nth_error h' 0
        = nth_error (examples.heapOf examples.tAddressPtrPtr) 0).
Proof.
  apply (Scan_failure_atomic examples.tAddressPtrPtr 0
           (Some (DBString "0x00")) (examples.heapOf examples.tAddressPtrPtr)).
  cbn. lia.
Defined.

Lemma Value_read_only_witness :
  let r : option string * option error :=
    (Some "0x0fa09c3a328792253f8dee7116848723b72a6d2e", None) in
  [Val common.AddressDecl examples.someAddress]
  = [Val common.AddressDecl examples.someAddress]
  /\ (r = (None, None)
      \/ r = (None, Some errNoBytes)
      \/ exists b, r = (Some (hexutil.Encode b), None)
                   /\ hexutil.wellFormed (hexutil.Encode b) = true).
Proof.
  apply (Value_read_only examples.tAddressPtr
           (Some (Ptr examples.tAddress (Some 0%nat)))
           [Val common.AddressDecl examples.someAddress]).
  vm_compute. reflexivity.
Defined.

Lemma Value_needs_value_receiver_witness :
  (forall r h,
      BytesSerializer.Value (Named examples.bigIntDecl)
        (Some (Val examples.bigIntDecl r)) h
      = Some ((None, Some errNoBytes), h))
  /\ (forall s b dst h,
        hexutil.Decode s = (b, None) ->
        (dst < List.length h)%nat ->
        exists h',
          BytesSerializer.Scan (Named examples.bigIntDecl) dst
            (Some (DBString s)) h = Some (None, h')
          /\ nth_error h' dst
             = Some (Val examples.bigIntDecl
                       ((fun _ b => b) (tzero examples.bigIntDecl) b)))
  /\ (forall r l h,
        nth_error h l = Some (Val examples.bigIntDecl r) ->
        BytesSerializer.Value (PointerTo (Named examples.bigIntDecl))
          (Some (Ptr (Named examples.bigIntDecl) (Some l))) h
        = Some ((Some (hexutil.Encode ((fun r => r) r)), None), h)).
Proof.
  apply (Value_needs_value_receiver examples.bigIntDecl
           (fun r => r) (fun _ b => b)); reflexivity.
Defined.

End serializers_more.

Module database_more.
Import database database_facts.

Lemma valueAddress_eq (a : common.Address) :
  valueAddress a = (Some (hexutil.Encode a), None).
Proof.
  unfold valueAddress.
  rewrite (serializers_facts.Value_named common.AddressDecl common.Bytes a []
             eq_refl).
  reflexivity.
Qed.

Lemma toRow_eq (e : Addresses) : toRow e = (rowOf e, None).
Proof. unfold toRow. rewrite valueAddress_eq. reflexivity. Qed.

Lemma convert_eq (l : list Addresses) :
  gorm.convert toRow l = (map rowOf l, None).
Proof.
  induction l as [|e l IH]; [reflexivity|].
  cbn [gorm.convert map]. rewrite toRow_eq, IH. reflexivity.
Qed.

Lemma scanRow_rowOf (e : Addresses) :
  List.length (Address e) = common.AddressLength ->
  scanRow (rowOf e) = (e, None).
Proof.
  intros H. rewrite (scanRow_of_key (rowOf e) (Address e) eq_refl).
  rewrite BytesToAddress_full by exact H. destruct e; reflexivity.
Qed.

Lemma hasGuid_false (table : list gorm.Row) g :
  gorm.hasGuid table g = false <-> ~ In g (map gorm.guid table).
Proof.
  unfold gorm.hasGuid. induction table as [|x t IH]; cbn; [tauto|].
  rewrite orb_false_iff, IH. destruct (String.eqb_spec (gorm.guid x) g);
    intuition congruence.
Qed.

Lemma hasAddress_false (table : list gorm.Row) a :
  gorm.hasAddress table a = false <-> ~ In a (map gorm.address table).
Proof.
  unfold gorm.hasAddress. induction table as [|x t IH]; cbn; [tauto|].
  rewrite orb_false_iff, IH. destruct (String.eqb_spec (gorm.address x) a);
    intuition congruence.
Qed.

Lemma NoDup_snoc {A} (l : list A) (x : A) :
  NoDup l -> ~ In x l -> NoDup (l ++ [x]).
Proof.
  induction l as [|a l IH]; intros Hn Hx; cbn.
  - constructor; [intros []|constructor].
  - inversion Hn as [|? ? Ha Hl]; subst. constructor.
    + rewrite in_app_iff. cbn. intros [H | [H | []]]; [tauto|].
      apply Hx. now left.
    + apply IH; [exact Hl|]. intros H. apply Hx. now right.
Qed.

Lemma violation_None (table : list gorm.Row) (r : gorm.Row) :
  gorm.violation table r = None <->
  gorm.inSmallint (gorm.address_type r) = true
  /\ gorm.inInteger (gorm.timestamp r) = true
  /\ 0 < gorm.timestamp r
  /\ ~ In (gorm.guid r) (map gorm.guid table)
  /\ ~ In (gorm.address r) (map gorm.address table).
Proof.
  unfold gorm.violation.
  rewrite <- hasGuid_false, <- hasAddress_false.
  destruct (gorm.inSmallint (gorm.address_type r)); cbn [negb];
    [|split; [discriminate | intros (H & _); discriminate]].
  destruct (gorm.inInteger (gorm.timestamp r)); cbn [negb];
    [|split; [discriminate | intros (_ & H & _); discriminate]].
  destruct (Z.leb_spec (gorm.timestamp r) 0);
    [split; [discriminate | intros (_ & _ & H' & _); lia]|].
  destruct (gorm.hasGuid table (gorm.guid r));
    [split; [discriminate | intros (_ & _ & _ & H' & _); discriminate]|].
  destruct (gorm.hasAddress table (gorm.address r));
    [split; [discriminate | intros (_ & _ & _ & _ & H'); discriminate]|].
  split; auto.
Qed.

Lemma validTable_snoc (table : list gorm.Row) (r : gorm.Row) :
  validTable table -> gorm.violation table r = None ->
  validTable (table ++ [r]).
Proof.
  intros (Hg & Ha & Hr) Hv. apply violation_None in Hv.
  destruct Hv as (H1 & H2 & H3 & H4 & H5).
  split; [|split].
  - rewrite map_app. now apply NoDup_snoc.
  - rewrite map_app. now apply NoDup_snoc.
  - intros x Hx. apply in_app_iff in Hx. destruct Hx as [Hx | [<- | []]].
    + now apply Hr.
    + auto.
Qed.

Lemma insertRows_inl (new : list gorm.Row) : forall table t,
  gorm.insertRows table new = inl t ->
  t = (table ++ new)%list /\ (validTable table -> validTable t).
Proof.
  induction new as [|r new IH]; intros table t H; cbn in H.
  - injection H as <-. rewrite app_nil_r. auto.
  - destruct (gorm.violation table r) eqn:Hv; [discriminate|].
    apply IH in H. destruct H as [-> H]. split.
    + now rewrite <- app_assoc.
    + intros Hvalid. apply H. now apply validTable_snoc.
Qed.

(** [StoreAddresses], unfolded: nothing for an empty list, one statement
    otherwise. *)
Lemma StoreAddresses_eq (db : gorm.DB) (l : list Addresses) :
  StoreAddresses db l
  = match l with
    | [] => (db, None)
    | _ =>
        match gorm.fault db with
        | Some e => (db, Some e)
        | None =>
            match gorm.insertRows (gorm.rows db) (map rowOf l) with
            | inr e => (db, Some e)
            | inl table => (gorm.mkDB table None, None)
            end
        end
    end.
Proof.
  unfold StoreAddresses, gorm.CreateInBatches.
  destruct l as [|e l]; [reflexivity|].
  cbn [List.length gorm.createBatches].
  rewrite firstn_all2 by (cbn; lia).
  rewrite skipn_all2 by (cbn; lia).
  unfold gorm.Create.
  destruct (gorm.fault db); [reflexivity|].
  rewrite convert_eq.
  destruct (gorm.insertRows (gorm.rows db) (map rowOf (e :: l)));
    [|reflexivity].
  destruct (List.length l); reflexivity.
Qed.

Lemma isAddressHex_decode (s : string) :
  common.isAddressHex s = true ->
  let b := fst (hex.DecodeString (hexutil.drop2 s)) in
  hexutil.Decode s = (b, None)
  /\ List.length b = common.AddressLength
  /\ hexutil.Encode b = strings.ToLower s.
Proof.
  unfold common.isAddressHex, hexutil.wellFormed. intros H.
  apply andb_prop in H. destruct H as [H Hlen].
  apply andb_prop in H. destruct H as [H Hhex].
  apply andb_prop in H. destruct H as [Hp Hev].
  apply Nat.eqb_eq in Hlen. cbv zeta.
  destruct (Encode_DecodeString (hexutil.drop2 s)) as [E L];
    [now rewrite Hev, Hhex|].
  split; [|split].
  - unfold hexutil.Decode.
    destruct s as [|c0 [|c1 s]]; try discriminate.
    cbn [String.length Nat.eqb]. rewrite Hp. cbn [negb].
    pose proof (proj2 (serializers_facts.DecodeString_ok_iff
                         (hexutil.drop2 (String c0 (String c1 s))))) as Hok.
    rewrite Hev, Hhex in Hok. specialize (Hok eq_refl).
    destruct (hex.DecodeString (hexutil.drop2 (String c0 (String c1 s))))
      as [b err]. cbn [snd fst] in *. subst err. reflexivity.
  - unfold common.AddressLength in *. lia.
  - unfold hexutil.Encode. rewrite E. symmetry. now apply ToLower_prefix.
Qed.

(** X8: a stored text that renders an address, in either case, scans into
    a 20-byte address without error, and writing that address back gives
    the text in lower case: reading and rewriting a row puts its address
    in the canonical form. *)
Theorem stored_text_canonical (s : string) :
  common.isAddressHex s = true ->
  exists a,
    scanAddress s = (a, None)
    /\ List.length a = common.AddressLength
    /\ valueAddress a = (Some (strings.ToLower s), None).
Proof.
  intros H. destruct (isAddressHex_decode s H) as (Hd & Hl & He).
  pose proof (scanAddress_spec s) as S. rewrite Hd in S.
  rewrite BytesToAddress_full in S by exact Hl.
  eexists. split; [exact S|]. split; [exact Hl|].
  rewrite valueAddress_eq. now rewrite He.
Qed.


Section Queries.
Variable Keccak256 : string -> list byte.


Lemma scanRow_found (r : gorm.Row) (a : common.Address) :
  gorm.holds (gorm.WhereAddress (lookupKey Keccak256 a)) r = true ->
  scanRow r
  = (mkAddresses (gorm.guid r) (common.BytesToAddress a)
       (gorm.address_type r) (gorm.public_key r) (gorm.timestamp r), None).
Proof.
  cbn [gorm.holds]. intros H. apply String.eqb_eq in H.
  apply scanRow_of_key. rewrite H. apply lookupKey_canonical.
Qed.

(** X10: [AddressExist] and [QueryAddressesByToAddress] agree: the first
    answers [true] exactly when the second returns a record with a nil
    error, and [false] exactly when the second returns an error. *)
Theorem AddressExist_agrees_with_query (db : gorm.DB) (a : common.Address) :
  (fst (AddressExist Keccak256 db a) = true
   <-> exists entry,
         QueryAddressesByToAddress Keccak256 db a = (Some entry, None))
  /\ (fst (AddressExist Keccak256 db a) = false
      <-> snd (QueryAddressesByToAddress Keccak256 db a) <> None).
Proof.
  unfold AddressExist, QueryAddressesByToAddress, gorm.First, gorm.Take,
    gorm.firstOf.
  destruct (gorm.fault db) as [e|].
  { destruct (errors.Is e "gorm.ErrRecordNotFound"); cbn;
      (split; split; [discriminate | intros [x H]; discriminate
                     | discriminate | reflexivity ]). }
  set (f := gorm.holds (gorm.WhereAddress (lookupKey Keccak256 a))).
  destruct (find f (gorm.orderByKey (gorm.rows db))) as [r0|] eqn:H0;
    destruct (find f (gorm.rows db)) as [r1|] eqn:H1.
  - apply find_some in H0, H1. destruct H0 as [_ H0], H1 as [_ H1].
    rewrite (scanRow_found r0 a H0), (scanRow_found r1 a H1). cbn.
    split; split; try discriminate; try (intros _; eexists; reflexivity).
    intros H. now contradiction H.
  - exfalso. apply find_some in H0. destruct H0 as [Hin H0].
    apply (proj1 (In_orderByKey _ _)) in Hin.
    pose proof (proj1 (find_none_iff _ _) H1 r0 Hin). congruence.
  - exfalso. apply find_some in H1. destruct H1 as [Hin H1].
    apply (proj2 (In_orderByKey _ _)) in Hin.
    pose proof (proj1 (find_none_iff _ _) H0 r1 Hin). congruence.
  - cbn. split; split; try discriminate; try reflexivity.
    intros [x H]. discriminate.
Qed.

End Queries.

Lemma StoreAddresses_success (db db' : gorm.DB) (l : list Addresses) :
  StoreAddresses db l = (db', None) ->
  gorm.rows db' = (gorm.rows db ++ map rowOf l)%list
  /\ (validTable (gorm.rows db) -> validTable (gorm.rows db'))
  /\ (l <> [] -> gorm.fault db' = None).
Proof.
  rewrite StoreAddresses_eq. destruct l as [|e l].
  { intros [= <-]. cbn [map]. rewrite app_nil_r.
    split; [reflexivity|]. split; [auto|]. intros H. now contradiction H. }
  destruct (gorm.fault db) as [f|]; [discriminate|].
  destruct (gorm.insertRows (gorm.rows db) (map rowOf (e :: l)))
    as [table|e'] eqn:Hi; [|discriminate].
  intros [= <-]. apply insertRows_inl in Hi. destruct Hi as [-> Hi].
  cbn [gorm.rows gorm.fault]. split; [reflexivity|]. split; [exact Hi|].
  reflexivity.
Qed.

Lemma StoreAddresses_failure (db db' : gorm.DB) (l : list Addresses)
    (e : error) :
  StoreAddresses db l = (db', Some e) -> db' = db /\ l <> [].
Proof.
  rewrite StoreAddresses_eq. destruct l as [|x l]; [discriminate|].
  destruct (gorm.fault db) as [f|]; [intros [= <- _]; split;
                                     [reflexivity | discriminate]|].
  destruct (gorm.insertRows (gorm.rows db) (map rowOf (x :: l)));
    [discriminate|].
  intros [= <- _]. split; [reflexivity | discriminate].
Qed.

(** X11: [StoreAddresses] keeps the constraints of the schema: on a
    table whose keys and addresses differ and whose columns are in range,
    it leaves such a table; when it returns an error, the storage is
    unchanged, none of the batch having been inserted; when it returns
    nil, the rows of the batch have been added after the others, in order;
    the empty batch does nothing and succeeds, the storage not being
    asked. *)
Theorem StoreAddresses_keeps_schema (db db' : gorm.DB) (l : list Addresses)
    (err : option error) :
  validTable (gorm.rows db) ->
  StoreAddresses db l = (db', err) ->
  validTable (gorm.rows db')
  /\ (err <> None -> db' = db)
  /\ (err = None ->
      gorm.rows db' = (gorm.rows db ++ map rowOf l)%list
      /\ (l <> [] -> gorm.fault db' = None))
  /\ (l = [] -> db' = db /\ err = None).
Proof.
  intros Hv Hs. destruct err as [e|].
  - destruct (StoreAddresses_failure db db' l e Hs) as [-> Hne].
    split; [exact Hv|]. split; [reflexivity|]. split; [discriminate|].
    intros H. contradiction.
  - destruct (StoreAddresses_success db db' l Hs) as (Hrows & Hvalid & Hf).
    split; [now apply Hvalid|]. split; [intros H; now contradiction H|].
    split; [intros _; split; assumption|].
    intros ->. rewrite StoreAddresses_eq in Hs. injection Hs as <-.
    split; reflexivity.
Qed.

Lemma NoDup_map_inj {A B} (f : A -> B) (l : list A) (x y : A) :
  NoDup (map f l) -> In x l -> In y l -> f x = f y -> x = y.
Proof.
  induction l as [|a l IH]; intros Hn Hx Hy Hf; [contradiction|].
  cbn in Hn. inversion Hn as [|? ? Ha Hl]; subst.
  destruct Hx as [<- | Hx], Hy as [<- | Hy]; auto.
  - exfalso. apply Ha. rewrite Hf. now apply in_map.
  - exfalso. apply Ha. rewrite <- Hf. now apply in_map.
Qed.

Section RoundTrip.
Variable Keccak256 : string -> list byte.

(** X12: what [StoreAddresses] has stored is found again: after a
    successful store on a table that satisfies its schema, for every record
    of the batch, [AddressExist] of its address answers [true] with its
    classification, and [QueryAddressesByToAddress] returns the record
    itself. *)
Theorem StoreAddresses_then_lookup (db db' : gorm.DB) (l : list Addresses)
    (e : Addresses) :
  validTable (gorm.rows db) ->
  StoreAddresses db l = (db', None) ->
  In e l ->
  List.length (Address e) = common.AddressLength ->
  AddressExist Keccak256 db' (Address e) = (true, AddressType e)
  /\ QueryAddressesByToAddress Keccak256 db' (Address e) = (Some e, None).
Proof.
  intros Hv Hs Hin Hlen.
  destruct (StoreAddresses_success db db' l Hs) as (Hrows & Hv' & Hfault).
  specialize (Hv' Hv).
  assert (Hne : l <> []) by (intros ->; contradiction).
  specialize (Hfault Hne).
  set (f := gorm.holds (gorm.WhereAddress (lookupKey Keccak256 (Address e)))).
  assert (Hrow : In (rowOf e) (gorm.rows db')).
  { rewrite Hrows. apply in_or_app. right. now apply in_map. }
  assert (Hf : f (rowOf e) = true).
  { unfold f. cbn [gorm.holds rowOf gorm.address].
    apply String.eqb_eq. symmetry. apply lookupKey_canonical. }
  assert (Huniq : forall r, In r (gorm.rows db') -> f r = true -> r = rowOf e).
  { intros r Hr Hfr. destruct Hv' as (_ & Ha & _).
    apply (NoDup_map_inj gorm.address (gorm.rows db')); auto.
    unfold f in Hfr, Hf. cbn [gorm.holds] in Hfr, Hf.
    apply String.eqb_eq in Hfr, Hf. congruence. }
  split.
  - unfold AddressExist, gorm.First, gorm.firstOf. rewrite Hfault. fold f.
    destruct (find f (gorm.orderByKey (gorm.rows db'))) as [r0|] eqn:H0.
    + apply find_some in H0. destruct H0 as [Hin0 H0].
      apply (proj1 (In_orderByKey _ _)) in Hin0.
      rewrite (Huniq r0 Hin0 H0), (scanRow_rowOf e Hlen). reflexivity.
    + exfalso. apply (proj2 (In_orderByKey _ _)) in Hrow.
      pose proof (proj1 (find_none_iff _ _) H0 _ Hrow). congruence.
  - unfold QueryAddressesByToAddress, gorm.Take, gorm.firstOf.
    rewrite Hfault. fold f.
    destruct (find f (gorm.rows db')) as [r0|] eqn:H0.
    + apply find_some in H0. destruct H0 as [Hin0 H0].
      rewrite (Huniq r0 Hin0 H0), (scanRow_rowOf e Hlen). reflexivity.
    + exfalso. pose proof (proj1 (find_none_iff _ _) H0 _ Hrow). congruence.
Qed.

End RoundTrip.

(** X13: storing a record whose address the table already holds, under a
    new key and with columns in range, fails with the violation of the
    unique constraint of [address] and leaves the storage unchanged; more
    generally, on a table that satisfies its schema, a batch that would
    make two rows share an address fails and leaves the storage
    unchanged. *)
Theorem StoreAddresses_duplicate :
  (forall (db : gorm.DB) (e : Addresses),
      gorm.fault db = None ->
      gorm.hasAddress (gorm.rows db) (hexutil.Encode (Address e)) = true ->
      gorm.hasGuid (gorm.rows db) (GUID e) = false ->
      gorm.inSmallint (AddressType e) = true ->
      gorm.inInteger (Timestamp e) = true ->
      0 < Timestamp e ->
      StoreAddresses db [e]
      = (db, Some (gorm.errUnique "addresses_address_key")))
  /\ (forall (db : gorm.DB) (l : list Addresses),
        validTable (gorm.rows db) ->
        ~ NoDup (map gorm.address (gorm.rows db ++ map rowOf l)) ->
        exists err, StoreAddresses db l = (db, Some err)).
Proof.
  split.
  - intros db e Hf Ha Hg Hs Hi Ht. rewrite StoreAddresses_eq, Hf.
    cbn [map gorm.insertRows]. unfold gorm.violation.
    cbn [rowOf gorm.address_type gorm.timestamp gorm.guid gorm.address].
    rewrite Hs, Hi, Hg, Ha. cbn [negb].
    replace (Timestamp e <=? 0) with false
      by (symmetry; apply Z.leb_gt; lia).
    reflexivity.
  - intros db l Hv Hdup.
    destruct (StoreAddresses db l) as [db' [err|]] eqn:Hs.
    + destruct (StoreAddresses_failure db db' l err Hs) as [-> _].
      now exists err.
    + exfalso.
      destruct (StoreAddresses_success db db' l Hs) as (Hrows & Hv' & _).
      destruct (Hv' Hv) as (_ & Ha & _). rewrite Hrows in Ha.
      contradiction.
Qed.

Section GetAll.
Variable addError : error -> error -> error.

Lemma scanRows_ok (rs : list gorm.Row) :
  (forall r, In r rs -> snd (scanRow r) = None) ->
  gorm.scanRows addError scanRow rs None
  = (map (fun r => fst (scanRow r)) rs, None).
Proof.
  induction rs as [|r rs IH]; intros H; [reflexivity|].
  cbn [gorm.scanRows map].
  pose proof (H r (or_introl eq_refl)) as Hr.
  destruct (scanRow r) as [d err]. cbn [snd fst] in *. subst err.
  rewrite IH by (intros x Hx; apply H; now right). reflexivity.
Qed.



End GetAll.

Lemma table_valid : validTable (gorm.rows examples.table).
Proof.
  split; [|split].
  - cbn. repeat constructor; cbn; intuition discriminate.
  - cbn. repeat constructor; cbn; intuition discriminate.
  - intros r [<- | [<- | [<- | []]]]; cbn; repeat split; lia.
Qed.

Lemma stored_text_canonical_witness :
  exists a,
    scanAddress "0x0fa09C3A328792253f8dee7116848723b72a6d2e" = (a, None)
    /\ List.length a = common.AddressLength
    /\ valueAddress a
       = (Some (strings.ToLower "0x0fa09C3A328792253f8dee7116848723b72a6d2e"),
          None).
Proof.
  apply (stored_text_canonical "0x0fa09C3A328792253f8dee7116848723b72a6d2e").
  vm_compute. reflexivity.
Defined.


Lemma StoreAddresses_keeps_schema_witness :
  let db' := gorm.mkDB (gorm.rows examples.table ++ [rowOf examples.newItem])
               None in
  validTable (gorm.rows db')
  /\ (@None error <> None -> db' = examples.table)
  /\ (@None error = None ->
      gorm.rows db'
      = (gorm.rows examples.table ++ map rowOf [examples.newItem])%list
      /\ ([examples.newItem] <> [] -> gorm.fault db' = None))
  /\ ([examples.newItem] = [] -> db' = examples.table /\ @None error = None).
Proof.
  apply (StoreAddresses_keeps_schema examples.table _ [examples.newItem] None).
  - exact table_valid.
  - vm_compute. reflexivity.
Defined.

Lemma StoreAddresses_then_lookup_witness :
  let db' := gorm.mkDB (gorm.rows examples.table ++ [rowOf examples.newItem])
               None in
  AddressExist examples.allUpper db' (Address examples.newItem)
  = (true, AddressType examples.newItem)
  /\ QueryAddressesByToAddress examples.allUpper db'
       (Address examples.newItem) = (Some examples.newItem, None).
Proof.
  apply (StoreAddresses_then_lookup examples.allUpper examples.table _
           [examples.newItem] examples.newItem).
  - exact table_valid.
  - vm_compute. reflexivity.
  - left. reflexivity.
  - reflexivity.
Defined.

Lemma StoreAddresses_duplicate_witness :
  StoreAddresses examples.table [examples.dupItem]
  = (examples.table, Some (gorm.errUnique "addresses_address_key")).
Proof.
  apply (proj1 StoreAddresses_duplicate examples.table examples.dupItem).
  - reflexivity.
  - vm_compute. reflexivity.
  - vm_compute. reflexivity.
  - reflexivity.
  - reflexivity.
  - cbn. lia.
Defined.


End database_more.

Module scanner_facts.
Import database database_facts database_more web3scanner.

Lemma hasAddress_app (t : list gorm.Row) (r : gorm.Row) :
  gorm.hasAddress (t ++ [r]) (gorm.address r) = true.
Proof.
  unfold gorm.hasAddress. rewrite existsb_app. cbn.
  rewrite String.eqb_refl. now rewrite orb_true_r.
Qed.

Lemma violation_of_known_address (t : list gorm.Row) (r : gorm.Row) :
  gorm.hasAddress t (gorm.address r) = true ->
  gorm.violation t r <> None.
Proof.
  intros H Hv. apply violation_None in Hv.
  destruct Hv as (_ & _ & _ & _ & Hn).
  apply hasAddress_false in Hn. congruence.
Qed.

Lemma uint64_small (n : Z) : 0 <= n < 2 ^ 63 -> uint64 n = n.
Proof. intros H. unfold uint64. apply Z.mod_small. lia. Qed.

Lemma uint64_negative (n : Z) :
  - 2 ^ 63 <= n < 0 -> uint64 n = n + 2 ^ 64.
Proof.
  intros H. unfold uint64.
  rewrite <- (Z.mod_add n 1 (2 ^ 64)) by lia.
  apply Z.mod_small. lia.
Qed.

Lemma inInteger_int64 (n : Z) :
  gorm.inInteger n = true -> 0 < n -> 0 <= n < 2 ^ 63.
Proof.
  unfold gorm.inInteger. intros H Hpos.
  apply andb_true_iff in H. destruct H as [_ H]. apply Z.leb_le in H. lia.
Qed.

Section Start.
Variable Keccak256 : string -> list byte.
Variable addError : error -> error -> error.

Lemma Start_stored (ws : Web3Scanner) (g : gorm.DB) uuid now out ws1 :
  gorm_ (db ws) = Some g ->
  Start Keccak256 addError ws uuid now = Some (out, ws1, None) ->
  gorm.fault g = None
  /\ ws1 = mkWeb3Scanner
             (mkDB (Some (gorm.mkDB (gorm.rows g ++ [rowOf (startItem uuid now)])
                            None)))
             (stopped ws).
Proof.
  intros Hg. unfold Start. rewrite Hg, StoreAddresses_eq.
  destruct (gorm.fault g) as [f|]; [discriminate|].
  cbn [map gorm.insertRows].
  fold (startItem uuid now).
  destruct (gorm.violation (gorm.rows g) (rowOf (startItem uuid now)));
    [discriminate|].
  destruct (GetAllAddresses addError _) as [l [e|]]; [discriminate|].
  intros [= _ <-]. split; reflexivity.
Qed.

(** X15: [Start] cannot be run twice on the same storage: once a run of
    [Start] has succeeded, every later run, whatever its key and its time,
    prints "store address fail", returns an error and leaves the storage
    as it was, the address it stores being the same and the column unique;
    with a new key and a time the column holds, the error is the violation
    of the unique constraint of [address]. *)
Theorem Start_twice_fails (ws : Web3Scanner) (g : gorm.DB) uuid1 now1 out1 ws1 :
  gorm_ (db ws) = Some g ->
  Start Keccak256 addError ws uuid1 now1 = Some (out1, ws1, None) ->
  (forall uuid2 now2,
      exists err,
        Start Keccak256 addError ws1 uuid2 now2
        = Some (["Web3Scanner start ........."; "store address fail"],
                ws1, Some err))
  /\ (forall uuid2 now2,
        uuid2 <> uuid1 ->
        gorm.hasGuid (gorm.rows g) uuid2 = false ->
        gorm.inInteger now2 = true ->
        0 < now2 ->
        Start Keccak256 addError ws1 uuid2 now2
        = Some (["Web3Scanner start ........."; "store address fail"],
                ws1, Some (gorm.errUnique "addresses_address_key"))).
Proof.
  intros Hg Hs. destruct (Start_stored ws g uuid1 now1 out1 ws1 Hg Hs)
    as [Hf ->].
  set (t := (gorm.rows g ++ [rowOf (startItem uuid1 now1)])%list).
  assert (Ha : forall uuid2 now2,
             gorm.hasAddress t (gorm.address (rowOf (startItem uuid2 now2)))
             = true).
  { intros. apply (hasAddress_app (gorm.rows g) (rowOf (startItem uuid1 now1))). }
  split.
  - intros uuid2 now2. unfold Start. cbn [db gorm_ stopped].
    rewrite StoreAddresses_eq. cbn [gorm.fault gorm.rows map gorm.insertRows].
    fold (startItem uuid2 now2). fold t.
    destruct (gorm.violation t (rowOf (startItem uuid2 now2))) as [e|] eqn:Hv.
    + exists e. reflexivity.
    + exfalso. now apply (violation_of_known_address t _ (Ha uuid2 now2)).
  - intros uuid2 now2 Hne Hguid Hint Hpos. unfold Start.
    cbn [db gorm_ stopped].
    rewrite StoreAddresses_eq. cbn [gorm.fault gorm.rows map gorm.insertRows].
    fold (startItem uuid2 now2). fold t.
    unfold gorm.violation. rewrite (Ha uuid2 now2).
    cbn [rowOf startItem gorm.address_type gorm.timestamp gorm.guid
         AddressType Timestamp GUID].
    change (gorm.inSmallint 1) with true.
    rewrite (uint64_small now2) by (apply inInteger_int64; assumption).
    rewrite Hint. cbn [negb].
    replace (now2 <=? 0) with false by (symmetry; apply Z.leb_gt; lia).
    replace (gorm.hasGuid t uuid2) with false; [reflexivity|].
    symmetry. unfold t, gorm.hasGuid. rewrite existsb_app.
    fold (gorm.hasGuid (gorm.rows g) uuid2). rewrite Hguid. cbn.
    rewrite orb_false_r. apply String.eqb_neq. congruence.
Qed.

Lemma startItem_length (uuid : string) (now : Z) :
  List.length (Address (startItem uuid now)) = common.AddressLength.
Proof. reflexivity. Qed.

Lemma GetAll_single (e : Addresses) :
  List.length (Address e) = common.AddressLength ->
  GetAllAddresses addError (gorm.mkDB [rowOf e] None) = ([e], None).
Proof.
  intros H. unfold GetAllAddresses, gorm.Find. cbn [gorm.fault gorm.rows].
  rewrite scanRows_ok.
  - cbn [map]. now rewrite scanRow_rowOf.
  - intros r [<- | []]. now rewrite scanRow_rowOf.
Qed.

(** X16: on an empty table, [Start] at a time of the clock that is
    positive and fits the INTEGER column, up to 2147483647, stores its
    record and prints it, its address in the checksum form; at any other
    time, past 2147483647 seconds or not positive, it prints "store
    address fail", returns an error and stores nothing. *)
Theorem Start_first_run (ws : Web3Scanner) (uuid : string) (now : Z) :
  gorm_ (db ws) = Some (gorm.mkDB [] None) ->
  - 2 ^ 63 <= now < 2 ^ 63 ->
  (0 < now <= 2147483647 ->
   Start Keccak256 addError ws uuid now
   = Some (("Web3Scanner start ........."
              :: printItem Keccak256 (startItem uuid now))%list,
           mkWeb3Scanner
             (mkDB (Some (gorm.mkDB [rowOf (startItem uuid now)] None)))
             (stopped ws),
           None)
   /\ Timestamp (startItem uuid now) = now)
  /\ (now <= 0 \/ 2147483647 < now ->
      exists err,
        Start Keccak256 addError ws uuid now
        = Some (["Web3Scanner start ........."; "store address fail"],
                mkWeb3Scanner (mkDB (Some (gorm.mkDB [] None))) (stopped ws),
                Some err)).
Proof.
  intros Hg Hrange. split.
  - intros Hnow. split; [|apply uint64_small; lia].
    unfold Start. rewrite Hg, StoreAddresses_eq.
    cbn [gorm.fault gorm.rows map gorm.insertRows].
    fold (startItem uuid now).
    rewrite (proj2 (violation_None [] (rowOf (startItem uuid now)))).
    + cbn [app].
      rewrite (GetAll_single (startItem uuid now) (startItem_length uuid now)).
      cbn [flat_map app]. rewrite app_nil_r. reflexivity.
    + cbn [rowOf startItem gorm.address_type gorm.timestamp gorm.guid
           gorm.address AddressType Timestamp GUID map].
      rewrite uint64_small by lia.
      split; [reflexivity|]. split.
      * unfold gorm.inInteger. apply andb_true_iff.
        split; apply Z.leb_le; lia.
      * split; [lia|]. split; intros [].
  - intros Hnow. unfold Start. rewrite Hg, StoreAddresses_eq.
    cbn [gorm.fault gorm.rows map gorm.insertRows].
    fold (startItem uuid now).
    destruct (gorm.violation [] (rowOf (startItem uuid now))) as [e|] eqn:Hv.
    + exists e. reflexivity.
    + exfalso. apply violation_None in Hv.
      destruct Hv as (_ & Hint & Hpos & _).
      cbn [rowOf startItem gorm.timestamp Timestamp] in Hint, Hpos.
      unfold gorm.inInteger in Hint. apply andb_true_iff in Hint.
      destruct Hint as [_ Hint]. apply Z.leb_le in Hint.
      destruct (Z_lt_le_dec now 0) as [Hneg|Hnn].
      * rewrite uint64_negative in Hint by lia. lia.
      * rewrite uint64_small in Hint, Hpos by lia. lia.
Qed.
End Start.

Lemma Start_twice_fails_witness :
  let ws1 := mkWeb3Scanner
               (mkDB (Some (gorm.mkDB [rowOf (startItem "u-1" 1700000000)]
                              None))) false in
  (forall uuid2 now2,
      exists err,
        Start examples.allUpper examples.joinErrors ws1 uuid2 now2
        = Some (["Web3Scanner start ........."; "store address fail"],
                ws1, Some err))
  /\ (forall uuid2 now2,
        uuid2 <> "u-1" ->
        gorm.hasGuid (gorm.rows (gorm.mkDB [] None)) uuid2 = false ->
        gorm.inInteger now2 = true ->
        0 < now2 ->
        Start examples.allUpper examples.joinErrors ws1 uuid2 now2
        = Some (["Web3Scanner start ........."; "store address fail"],
                ws1, Some (gorm.errUnique "addresses_address_key"))).
Proof.
  apply (Start_twice_fails examples.allUpper examples.joinErrors
           examples.newScanner (gorm.mkDB [] None) "u-1" 1700000000
           ("Web3Scanner start ........."
              :: printItem examples.allUpper (startItem "u-1" 1700000000))).
  - reflexivity.
  - vm_compute. reflexivity.
Defined.

Lemma Start_first_run_witness :
  (0 < 4102444800 <= 2147483647 ->
   Start examples.allUpper examples.joinErrors examples.newScanner "u-1"
     4102444800
   = Some (("Web3Scanner start ........."
              :: printItem examples.allUpper (startItem "u-1" 4102444800))%list,
           mkWeb3Scanner
             (mkDB (Some (gorm.mkDB [rowOf (startItem "u-1" 4102444800)]
                            None)))
             (stopped examples.newScanner),
           None)
   /\ Timestamp (startItem "u-1" 4102444800) = 4102444800)
  /\ (4102444800 <= 0 \/ 2147483647 < 4102444800 ->
      exists err,
        Start examples.allUpper examples.joinErrors examples.newScanner "u-1"
          4102444800
        = Some (["Web3Scanner start ........."; "store address fail"],
                mkWeb3Scanner (mkDB (Some (gorm.mkDB [] None)))
                  (stopped examples.newScanner),
                Some err)).
Proof.
  apply (Start_first_run examples.allUpper examples.joinErrors
           examples.newScanner "u-1" 4102444800 eq_refl).
  lia.
Defined.

End scanner_facts.

Module logger_facts.
Import utils.

Lemma ToLower_app (a b : string) :
  strings.ToLower (a ++ b) = strings.ToLower a ++ strings.ToLower b.
Proof. induction a as [|c a IH]; cbn; [reflexivity | now rewrite IH]. Qed.

Lemma prefix_app_long (p : string) : forall s t,
  (String.length p <= String.length s)%nat ->
  String.prefix p (s ++ t) = String.prefix p s.
Proof.
  induction p as [|c p IH]; intros s t H.
  - destruct s; destruct t; reflexivity.
  - destruct s as [|d s]; [cbn in H; lia|].
    cbn [append String.prefix]. destruct (ascii_dec c d); [|reflexivity].
    apply IH. cbn in H. lia.
Qed.

Lemma prefix_length (p : string) : forall s,
  String.prefix p s = true -> (String.length p <= String.length s)%nat.
Proof.
  induction p as [|c p IH]; intros s H; [cbn; lia|].
  destruct s as [|d s]; [discriminate|]. cbn in H.
  destruct (ascii_dec c d); [|discriminate]. cbn. apply IH in H. lia.
Qed.

Lemma Index_bound (sub : string) : forall s,
  0 <= strings.Index s sub ->
  Z.of_nat (String.length sub) + strings.Index s sub
  <= Z.of_nat (String.length s).
Proof.
  induction s as [|c s IH]; cbn [strings.Index]; intros H.
  - destruct (String.prefix sub "") eqn:P; [|lia].
    apply prefix_length in P. cbn in *. lia.
  - destruct (String.prefix sub (String c s)) eqn:P.
    + apply prefix_length in P. cbn [String.length] in *. lia.
    + destruct (Z.ltb_spec (strings.Index s sub) 0); [lia|].
      specialize (IH ltac:(lia)). cbn [String.length]. lia.
Qed.

(** What follows the first instance does not move it. *)
Lemma Index_app (sub : string) : forall s t,
  0 <= strings.Index s sub ->
  strings.Index (s ++ t) sub = strings.Index s sub.
Proof.
  induction s as [|c s IH]; intros t H.
  - cbn [strings.Index] in H. destruct (String.prefix sub "") eqn:P; [|lia].
    destruct sub; [|discriminate]. destruct t; reflexivity.
  - pose proof (Index_bound sub (String c s) H) as Hb.
    cbn [append strings.Index] in *.
    change (String c (s ++ t)) with (String c s ++ t).
    rewrite prefix_app_long by lia.
    destruct (String.prefix sub (String c s)); [reflexivity|].
    destruct (Z.ltb_spec (strings.Index s sub) 0); [lia|].
    rewrite IH by lia.
    destruct (Z.ltb_spec (strings.Index s sub) 0); [lia | reflexivity].
Qed.

Lemma substring_app (n : nat) : forall s t,
  (n <= String.length s)%nat ->
  String.substring 0 n (s ++ t) = String.substring 0 n s.
Proof.
  induction n as [|n IH]; intros s t H.
  - destruct s; destruct t; reflexivity.
  - destruct s as [|c s]; [cbn in H; lia|].
    cbn [append String.substring]. f_equal. apply IH. cbn in H. lia.
Qed.

Lemma length_ToLower (s : string) :
  String.length (strings.ToLower s) = String.length s.
Proof. induction s; cbn; [reflexivity | now rewrite IHs]. Qed.

(** X17: for a statement in ASCII, [Trace] never logs what follows the
    first "values" of the statement, in either case, when it stands after
    the first character: the logged text is the statement up to there
    followed by [VALUES (...)], whatever comes after.  A statement without
    the word, or one that begins with it, is logged whole.  The entry is a
    warning exactly when the statement took 200 ms or more, whether it
    failed or not. *)
Theorem Trace_elides_values (elapsedMs rows : Z) (err : option error)
    (statement : string) :
  strings.isASCII statement = true ->
  (0 < strings.Index (strings.ToLower statement) "values" ->
   forall tail,
     strings.isASCII tail = true ->
     sql (Trace elapsedMs (statement ++ tail, rows) err)
     = String.substring 0
         (Z.to_nat (strings.Index (strings.ToLower statement) "values"))
         statement ++ "VALUES (...)")
  /\ (strings.Index (strings.ToLower statement) "values" <= 0 ->
      sql (Trace elapsedMs (statement, rows) err) = statement)
  /\ level (Trace elapsedMs (statement, rows) err)
     = (if elapsedMs <? 200 then LvlDebug else LvlWarn).
Proof.
  intros _. split; [|split].
  - intros Hi tail _. unfold Trace. rewrite ToLower_app.
    pose proof (Index_bound "values" (strings.ToLower statement)
                  ltac:(lia)) as Hb.
    rewrite length_ToLower in Hb.
    rewrite Index_app by lia.
    replace (0 <? strings.Index (strings.ToLower statement) "values")
      with true by (symmetry; apply Z.ltb_lt; lia).
    rewrite substring_app by lia.
    destruct (elapsedMs <? 200); reflexivity.
  - intros Hi. unfold Trace.
    replace (0 <? strings.Index (strings.ToLower statement) "values")
      with false by (symmetry; apply Z.ltb_ge; lia).
    destruct (elapsedMs <? 200); reflexivity.
  - unfold Trace. destruct (elapsedMs <? 200); reflexivity.
Qed.

Lemma Trace_elides_values_witness :
  strings.isASCII "insert into addresses (guid,address) values" = true
  /\ sql (Trace 12
            ("insert into addresses (guid,address) values"
               ++ " ('7f1c','0x00000000000000000000000000000000000000aa')",
             1) None)
     = "insert into addresses (guid,address) VALUES (...)".
Proof.
  split; [reflexivity|].
  apply (proj1 (Trace_elides_values 12 1 None
                  "insert into addresses (guid,address) values" eq_refl)).
  - vm_compute. reflexivity.
  - reflexivity.
Defined.

End logger_facts.

Module migration_more.
Import filepath database migration_facts.

Section M.
Variable Exec : list string -> string -> option error.
Variable root : Path.

Lemma rejected_self : rejected root root = false.
Proof.
  unfold rejected, Rel. rewrite Bool.eqb_reflx. unfold list_eqb.
  destruct (list_eq_dec string_dec (elems root) (elems root)) as [_|H];
    [reflexivity | now contradiction H].
Qed.

(** X18: the edges of [ExecuteSQLMigration]: an empty folder is no error
    and executes nothing; a folder that cannot be examined, or listed,
    gives the error of the file system, wrapped with the path, and
    executes nothing; and when the path is that of a regular file, not of
    a folder, the file itself is read and executed as one script. *)
Theorem ExecuteSQLMigration_edges (m : Migration) :
  ExecuteSQLMigration Exec root (Directory []) m = (None, m)
  /\ (forall e,
        ExecuteSQLMigration Exec root (LstatFails e) m
        = (Some (withMessage e ("Failed to process migration file: "
                                  ++ pathString root)), m))
  /\ (forall e,
        ExecuteSQLMigration Exec root (UnlistableDir e) m
        = (Some (withMessage e ("Failed to process migration file: "
                                  ++ pathString root)), m))
  /\ (forall content,
        ExecuteSQLMigration Exec root (RegularFile content) m
        = (option_map
             (fun e => withMessage e ("Error executing SQL script: "
                                        ++ pathString root))
             (Exec (executed m) content),
           mkMigration (filesRead m ++ [pathString root])
             (executed m ++ [content]))).
Proof.
  split; [|split; [|split]].
  - reflexivity.
  - intros e. reflexivity.
  - intros e. reflexivity.
  - intros content. rewrite ExecuteSQLMigration_walk.
    cbn [visits migrateAll os.ReadFile]. rewrite rejected_self.
    cbn [filesRead executed].
    destruct (Exec (executed m) content); reflexivity.
Qed.

(** Entries that are all accepted, and whose scripts all execute, are gone
    through; the run goes on with what follows them. *)
Lemma migrateAll_prefix (pre : list (Path * Node)) : forall rest m,
  allAccepted root pre ->
  (forall done script,
      In script (map snd (regularFiles pre)) -> Exec done script = None) ->
  migrateAll Exec root (pre ++ rest) m
  = migrateAll Exec root rest
      (mkMigration
         (filesRead m ++ map (fun f => pathString (fst f)) (regularFiles pre))
         (executed m ++ map snd (regularFiles pre))).
Proof.
  induction pre as [|[path found] pre IH]; intros rest m Hall Hex.
  - cbn. rewrite !app_nil_r. destruct m; reflexivity.
  - assert (Hpre : allAccepted root pre).
    { intros p f Hin. apply Hall. now right. }
    pose proof (Hall path found (or_introl eq_refl)) as Hhere.
    destruct found as [c|e|es|e|e]; try contradiction.
    + cbn [app migrateAll os.ReadFile]. rewrite Hhere.
      rewrite Hex by (cbn; now left).
      rewrite IH; [|exact Hpre|].
      * cbn [regularFiles flat_map snd fst app map filesRead executed].
        fold (regularFiles pre). rewrite <- !app_assoc. reflexivity.
      * intros done script Hin. apply Hex. cbn. now right.
    + cbn [app migrateAll]. rewrite IH; [|exact Hpre|].
      * reflexivity.
      * intros done script Hin. apply Hex. exact Hin.
Qed.

(** X19: a migration is not undone when a script fails: when the scripts
    of the entries before a file execute and the script of the file fails,
    [ExecuteSQLMigration] returns that failure wrapped with the path of
    the file, the scripts before it stay executed, in the order of the
    walk, and no entry after the file is read. *)
Theorem ExecuteSQLMigration_stops_at_failure (fs : Node) (m : Migration)
    (pre post : list (Path * Node)) (path : Path) (content : string)
    (e : error) :
  visits root fs = (pre ++ (path, RegularFile content) :: post)%list ->
  allAccepted root pre ->
  rejected root path = false ->
  (forall done script,
      In script (map snd (regularFiles pre)) -> Exec done script = None) ->
  Exec (executed m ++ map snd (regularFiles pre)) content = Some e ->
  ExecuteSQLMigration Exec root fs m
  = (Some (withMessage e ("Error executing SQL script: "
                            ++ pathString path)),
     mkMigration
       ((filesRead m ++ map (fun f => pathString (fst f)) (regularFiles pre))
          ++ [pathString path])
       ((executed m ++ map snd (regularFiles pre)) ++ [content])).
Proof.
  intros Hv Hall Hrej Hex Hfail.
  rewrite ExecuteSQLMigration_walk, Hv.
  rewrite migrateAll_prefix by assumption.
  cbn [migrateAll os.ReadFile filesRead executed]. rewrite Hrej, Hfail.
  reflexivity.
Qed.

End M.

Lemma ExecuteSQLMigration_stops_at_failure_witness :
  ExecuteSQLMigration examples.execFailsOnB examples.migrations
    examples.folder examples.noMigration
  = (Some (withMessage (errorString "ERROR: syntax error")
             ("Error executing SQL script: "
                ++ pathString (Join (Join examples.migrations "sub") "b.sql"))),
     mkMigration
       ((filesRead examples.noMigration
           ++ map (fun f => pathString (fst f))
                (regularFiles
                   [(examples.migrations, examples.folder);
                    (Join examples.migrations "a.sql",
                     RegularFile "CREATE TABLE a ();");
                    (Join examples.migrations "sub",
                     Directory [("b.sql", RegularFile "CREATE TABLE b ();")])]))
          ++ [pathString (Join (Join examples.migrations "sub") "b.sql")])
       ((executed examples.noMigration
           ++ map snd
                (regularFiles
                   [(examples.migrations, examples.folder);
                    (Join examples.migrations "a.sql",
                     RegularFile "CREATE TABLE a ();");
                    (Join examples.migrations "sub",
                     Directory [("b.sql", RegularFile "CREATE TABLE b ();")])]))
          ++ ["CREATE TABLE b ();"])).
Proof.
  apply (ExecuteSQLMigration_stops_at_failure examples.execFailsOnB
           examples.migrations examples.folder examples.noMigration
           [(examples.migrations, examples.folder);
            (Join examples.migrations "a.sql",
             RegularFile "CREATE TABLE a ();");
            (Join examples.migrations "sub",
             Directory [("b.sql", RegularFile "CREATE TABLE b ();")])]
           []
           (Join (Join examples.migrations "sub") "b.sql")
           "CREATE TABLE b ();" (errorString "ERROR: syntax error")).
  - reflexivity.
  - intros path found Hin.
    destruct Hin as [H | [H | [H | []]]]; injection H as <- <-;
      try exact I; reflexivity.
  - reflexivity.
  - intros done script [<- | []]. reflexivity.
  - reflexivity.
Defined.

End migration_more.
